(** * Chaos-deep-classifier: the data pipeline of [Main_notebook.ipynb]

    A shallow embedding of the numeric bookkeeping the notebook performs
    outside the learned model: the grid resolution computed from the point
    count, the shuffle-and-split cell that produces the training and the
    validation subsets, and the loop that ingests the external JHMAP
    trajectories (normalisation by the axis maxima, then a row-major
    reshape to a [res] x [res] grid).

    Number model.  Python's [float] values are IEEE binary64, given by
    [SpecFloat] with round to nearest, ties to even.  Where rounding
    decides the outcome (the two slice bounds of the split, the
    resolution, the quotients of the normalisation) the cells are embedded
    in binary64: [split64], [res64], [normalise64].  The properties that
    hold whatever the bounds and the quotients are (pairing, layout,
    shapes, the slice with a zero bound) are stated on an embedding whose
    numbers are the exact rationals ([Q]), with [int(...)] as truncation
    toward zero and with the infinities and NaN only where a division by
    zero creates them. *)

From Stdlib Require Import ZArith QArith Qround Qabs Lia.
From Stdlib Require Import SpecFloat.
From stdpp Require Import base option list strings.

Local Open Scope Z_scope.

(** ** Exceptions

    The cells raise nothing themselves; what can abort them are the
    exceptions of the library calls they make. *)

Inductive exn : Type :=
  | InconsistentLength   (* sklearn: "Found input variables with inconsistent numbers of samples" *)
  | IndexOutOfRange      (* IndexError of an indexing expression *)
  | EmptyMax             (* ValueError: max() arg is an empty sequence *)
  | ShapeError           (* ValueError of ndarray.reshape: the size does not fit the shape *)
  | NanToInteger         (* ValueError: cannot convert float NaN to integer *)
  | FormatError          (* np.loadtxt could not parse the file *)
  | ConfigurationError   (* assembler: a label outside {0, 1} *)
  | OverflowError        (* int(inf), or an int too large to convert to float *)
  | TypeError.           (* a NumPy ufunc without a loop for the argument's type *)

Inductive result (A : Type) : Type :=
  | Ok (a : A)
  | Raise (e : exn).
Arguments Ok {A} a.
Arguments Raise {A} e.

#[global] Instance result_ret : MRet result := fun A a => Ok a.
#[global] Instance result_bind : MBind result := fun A B f m =>
  match m with
  | Ok a => f a
  | Raise e => Raise e
  end.

Definition raises {A : Type} (m : result A) (e : exn) : Prop := m = Raise e.

(** ** Python numerics *)

(** [int(x)] on a float: truncation toward zero, of the exact number. *)
Definition py_int (x : Q) : Z := Z.quot (Qnum x) (Z.pos (Qden x)).

(** ** Python slices with one bound

    [PySlice_AdjustIndices] for step 1: a negative bound counts from the
    end, and the result is clipped to [0 .. len]. *)

Definition adjust_index (len i : Z) : Z :=
  if i <? 0 then Z.max (len + i) 0 else Z.min i len.

Section Slices.
Context {A : Type}.

(** [d[:stop]] *)
Definition slice_to (stop : Z) (d : list A) : list A :=
  take (Z.to_nat (adjust_index (Z.of_nat (length d)) stop)) d.

(** [d[start:]] *)
Definition slice_from (start : Z) (d : list A) : list A :=
  drop (Z.to_nat (adjust_index (Z.of_nat (length d)) start)) d.

(** [d[:int((frac)*Np)]], the product taken exactly; [train_count] below
    takes it in binary64. *)
Definition data_train_of (frac : Q) (Np : Z) (d : list A) : list A :=
  slice_to (py_int (frac * inject_Z Np)) d.

(** [d[-int((1-frac)*Np):]], the product taken exactly; [val_count] below
    takes it in binary64. *)
Definition data_val_of (frac : Q) (Np : Z) (d : list A) : list A :=
  slice_from (- py_int ((1 - frac) * inject_Z Np)) d.
End Slices.

(** ** Grid resolution (first code cell)

    [res = int(np.sqrt(2*n_points))].  For a non-negative argument the
    truncated square root is taken exactly, as the integer square root;
    for a negative one [np.sqrt] yields NaN and [int] raises.  [res64]
    below is the computation in binary64, which agrees with this one for
    fewer than 2^51 points. *)

Definition resolution (n_points : Z) : result Z :=
  if 2 * n_points <? 0 then Raise NanToInteger else Ok (Z.sqrt (2 * n_points)).

(** The spec's resolution: the least integer whose square reaches [m]. *)
Definition ceil_sqrt (m : Z) : Z :=
  let s := Z.sqrt m in if s * s =? m then s else s + 1.

(** ** The process-wide random generator

    [sklearn.utils.shuffle] is called without [random_state], so it draws
    from NumPy's process-wide generator.  The generator is external: all
    the cell needs from it is that shuffling [arange(n)] leaves a
    permutation of [0 .. n-1] and a new generator state. *)

Class RandomState (G : Type) : Type := {
  rs_shuffle_arange : G -> nat -> list nat * G;
  rs_shuffle_arange_perm : forall g n, (rs_shuffle_arange g n).1 ≡ₚ seq 0 n
}.

(** [_safe_indexing(a, indices)]: the items of [a] at [indices], in the
    order of [indices]. *)
Fixpoint safe_indexing {A : Type} (a : list A) (indices : list nat) : result (list A) :=
  match indices with
  | [] => Ok []
  | i :: rest =>
      match a !! i with
      | Some x => xs ← safe_indexing a rest; Ok (x :: xs)
      | None => Raise IndexOutOfRange
      end
  end.

Section Partitioner.
Context {G : Type} `{RandomState G}.
Context {X Y : Type}.

(** [shuffle(X_train, y)]: one permutation of the indices, applied to
    every array; arrays of different lengths are refused. *)
Definition sk_shuffle (g : G) (X_train : list X) (y : list Y)
  : result (list X * list Y * G) :=
  if decide (length X_train = length y) then
    let '(indices, g') := rs_shuffle_arange g (length X_train) in
    X' ← safe_indexing X_train indices;
    y' ← safe_indexing y indices;
    Ok (X', y', g')
  else Raise InconsistentLength.

(** The second code cell, from [Np = int(len(data_SM[0]))] to
    [data_val]: the result is [(data_train, data_val)] and the state the
    generator is left in. *)
Definition split (g : G) (frac : Q) (data_SM : list X * list Y)
  : result ((list X * list Y) * (list X * list Y) * G) :=
  let Np := Z.of_nat (length data_SM.1) in
  let X_train := data_SM.1 in
  let y := data_SM.2 in
  '(X', y', g') ← sk_shuffle g X_train y;
  let data_train := (data_train_of frac Np X', data_train_of frac Np y') in
  let data_val := (data_val_of frac Np X', data_val_of frac Np y') in
  Ok (data_train, data_val, g').
End Partitioner.

(** The train and validation subsets of a run, without the generator. *)
Definition subsets_of {S G : Type} (r : result (S * S * G)) : result (S * S) :=
  '(data_train, data_val, _) ← r; Ok (data_train, data_val).

(** A small concrete generator, to run the cell: state [g] rotates the
    indices by [g] places and moves on to [g + 1]. *)
Definition rotating_shuffle (g n : nat) : list nat * nat := (rotate g (seq 0 n), S g).

#[global] Instance rotating_generator : RandomState nat.
Proof.
  refine {| rs_shuffle_arange := rotating_shuffle |}.
  intros g n. unfold rotating_shuffle, rotate. simpl.
  rewrite Permutation_app_comm. rewrite take_drop. reflexivity.
Defined.

(** ** Ingestion of the external JHMAP trajectories (last code cell) *)

(** A [np.float64] produced by the normalisation.  The file holds finite
    numbers; a division can add infinities and NaN to them. *)
Inductive float64 : Type :=
  | Finite (q : Q)
  | Infinity (negative : bool)
  | NaN.

(** [a / b] on [np.float64] scalars: a zero divisor gives a warning and a
    non-finite value, never an exception.  The quotient is the exact one;
    [Binary64.truediv] is the rounded one. *)
Definition true_divide (a b : Q) : float64 :=
  if Qeq_bool b 0 then
    if Qeq_bool a 0 then NaN else Infinity (negb (Qle_bool 0 a))
  else Finite (a / b).

(** Python's builtin [max] over a sequence: the first of the largest
    items; it raises on an empty sequence. *)
Definition py_max (l : list Q) : result Q :=
  match l with
  | [] => Raise EmptyMax
  | x :: rest => Ok (fold_left (fun m v => if Qle_bool v m then m else v) rest x)
  end.

(** [max(np.abs(test_i[:,c]))] for [c = 0] and [c = 1]. *)
Definition max_abs_col0 (test_i : list (Q * Q)) : result Q := py_max (map (fun r => Qabs r.1) test_i).
Definition max_abs_col1 (test_i : list (Q * Q)) : result Q := py_max (map (fun r => Qabs r.2) test_i).

Definition grid : Type := list (list float64).

(** [for i in range(0,len(test_i)): testX.append([.../max(...), .../max(...)])].
    [todo] holds the rows [test_i[i]] still to visit, [testX] the list
    built so far. *)
Fixpoint normalise_loop (test_i todo : list (Q * Q)) (testX : list (float64 * float64))
  : result (list (float64 * float64)) :=
  match todo with
  | [] => Ok testX
  | row :: rest =>
      mx ← max_abs_col0 test_i;
      my ← max_abs_col1 test_i;
      normalise_loop test_i rest (testX ++ [(true_divide row.1 mx, true_divide row.2 my)])
  end.

Definition normalise (test_i : list (Q * Q)) : result (list (float64 * float64)) :=
  normalise_loop test_i test_i [].

(** The items of [np.array(testX)] in C order: x0, y0, x1, y1, ... *)
Definition ravel {A : Type} (testX : list (A * A)) : list A :=
  concat (map (fun p => [p.1; p.2]) testX).

(** [rows] consecutive runs of [cols] items. *)
Fixpoint chunks {A : Type} (rows cols : nat) (flat : list A) : list (list A) :=
  match rows with
  | O => []
  | S rows' => take cols flat :: chunks rows' cols (drop cols flat)
  end.

(** [a.reshape(res,res)]: the items are kept in C order; the size must be
    [res * res]. *)
Definition reshape {A : Type} (res : Z) (flat : list A) : result (list (list A)) :=
  if (0 <=? res) && (Z.of_nat (length flat) =? res * res)
  then Ok (chunks (Z.to_nat res) (Z.to_nat res) flat)
  else Raise ShapeError.

(** Lines [testX = []] to [testX = testX.reshape(res,res)]. *)
Definition discretize (test_i : list (Q * Q)) (res : Z) : result grid :=
  testX ← normalise test_i;
  reshape res (ravel testX).

(** What [np.loadtxt] returns for a two-column file: a table of shape
    (m, 2) when the file has two rows or more, and a one-dimensional array
    when it has one row (shape (2,)) or none (shape (0,)). *)
Inductive loaded_array : Type :=
  | Table (rows : list (Q * Q))
  | Vector (items : list Q).

(** One file: [np.loadtxt(folder_i)[:n_points]], then the lines above.
    On a one-dimensional array [test_i[i]] is a scalar, and the first
    [test_i[i][0]] raises; without items the loop body is never run. *)
Definition ingest (n_points res : Z) (loaded : loaded_array) : result grid :=
  match loaded with
  | Table rows => discretize (slice_to n_points rows) res
  | Vector items =>
      match slice_to n_points items with
      | [] => discretize [] res
      | _ :: _ => Raise IndexOutOfRange
      end
  end.

Section JHMAP.
(** [np.loadtxt] on the file of a given number; the file system is
    outside the program. *)
Variable loadtxt : string -> result loaded_array.
Variables n_points res : Z.

(** [for data_i in data: ...], with the two lists the body appends to.
    The result holds the lists of a loop that ends without an exception;
    [ingest_loop_lists] below also keeps what they hold when it does not. *)
Fixpoint ingest_loop (data : list (string * Z))
    (data_JHMAP_orbits : list grid) (data_JHMAP_labels : list Z)
  : result (list grid * list Z) :=
  match data with
  | [] => Ok (data_JHMAP_orbits, data_JHMAP_labels)
  | data_i :: rest =>
      let file_i := data_i.1 in
      let class_i := data_i.2 in
      loaded ← loadtxt file_i;
      testX ← ingest n_points res loaded;
      ingest_loop rest (data_JHMAP_orbits ++ [testX]) (data_JHMAP_labels ++ [class_i])
  end.

Definition ingest_all (data : list (string * Z)) : result (list grid * list Z) :=
  ingest_loop data [] [].
End JHMAP.


(** ** Dataset assembly *)

Section Assembler.
Context {entry trajectory image : Type}.
Variable simulate : entry -> result trajectory.
Variable to_grid : trajectory -> result image.
Variable label_of : entry -> Z.

(** Modelled from the spec: the assemblers [load_data_SM],
    [load_data_deVog] and [load_data_Web] of generate_data.py are not
    among the sources.  "For every entry: invoke the Map Simulator, then
    the Grid Discretizer, accumulate Grid into the Grids sequence and
    label into the Labels sequence, preserving entry order"; an entry
    whose label is not in {0, 1} is rejected with a ConfigurationError,
    and a failing entry aborts the assembly. *)
Fixpoint assemble_loop (entries : list entry) (Grids : list image) (Labels : list Z)
  : result (list image * list Z) :=
  match entries with
  | [] => Ok (Grids, Labels)
  | e :: rest =>
      if bool_decide (label_of e = 0 \/ label_of e = 1) then
        t ← simulate e;
        g ← to_grid t;
        assemble_loop rest (Grids ++ [g]) (Labels ++ [label_of e])
      else Raise ConfigurationError
  end.

Definition assemble (entries : list entry) : result (list image * list Z) :=
  assemble_loop entries [] [].
End Assembler.

(** ** IEEE binary64

    Python floats are binary64; [SpecFloat] gives their operations with
    round-to-nearest-even. *)

Module Binary64.
Definition prec : Z := 53.
Definition emax : Z := 1024.

Definition of_int (n : Z) : spec_float := binary_normalize prec emax n 0 false.
Definition truediv (a b : spec_float) : spec_float := SFdiv prec emax a b.
Definition mul (a b : spec_float) : spec_float := SFmul prec emax a b.
Definition sub (a b : spec_float) : spec_float := SFsub prec emax a b.
Definition sqrt (a : spec_float) : spec_float := SFsqrt prec emax a.

(** [int(x)]: truncation toward zero; it raises on infinities and NaN. *)
Definition int (x : spec_float) : option Z :=
  match x with
  | S754_zero _ => Some 0
  | S754_finite s m e =>
      let a := if 0 <=? e then Z.pos m * 2 ^ e else Z.pos m / 2 ^ (- e) in
      Some (if s then - a else a)
  | S754_infinity _ | S754_nan => None
  end.

(** [int((frac)*Np)] and [int((1-frac)*Np)] for [frac = num/den]. *)
Definition train_bound (num den Np : Z) : option Z :=
  int (mul (truediv (of_int num) (of_int den)) (of_int Np)).
Definition val_bound (num den Np : Z) : option Z :=
  int (mul (sub (of_int 1) (truediv (of_int num) (of_int den))) (of_int Np)).

(** [int(np.sqrt(2*n_points))] *)
Definition res (n_points : Z) : option Z := int (sqrt (of_int (2 * n_points))).
End Binary64.

(** ** Vocabulary of the statements *)

Section Vocabulary.
Context {X Y : Type}.

(** The first [n] and the last [n] entries of a sequence. *)
Definition first_entries {A : Type} (n : nat) (d : list A) : list A := take n d.
Definition last_entries {A : Type} (n : nat) (d : list A) : list A := drop (length d - n) d.

(** What a successful shuffle returns: both arrays read through one
    permutation [p] of the indices. *)
Definition shuffled_through (p : list nat) (Xs : list X) (ys : list Y)
    (Xs' : list X) (ys' : list Y) : Prop :=
  p ≡ₚ seq 0 (length Xs) /\
  length Xs' = length Xs /\ length ys' = length Xs /\
  forall k i, p !! k = Some i -> Xs' !! k = Xs !! i /\ ys' !! k = ys !! i.

(** The axis maxima as numbers: [max(np.abs(test_i[:,c]))] where the
    call returns, 0 for the table without rows (where the loop never
    makes the call). *)
Definition axis_max0 (test_i : list (Q * Q)) : Q :=
  match max_abs_col0 test_i with Ok m => m | Raise _ => 0%Q end.
Definition axis_max1 (test_i : list (Q * Q)) : Q :=
  match max_abs_col1 test_i with Ok m => m | Raise _ => 0%Q end.

(** Shapes of nested sequences, as [ndarray.shape] reports them. *)
Definition has_shape2 {A : Type} (rows cols : nat) (a : list (list A)) : Prop :=
  length a = rows /\ Forall (fun row => length row = cols) a.

(** Item [(i, j)] of a two-dimensional array. *)
Definition cell {A : Type} (a : list (list A)) (i j : nat) : option A :=
  a !! i ≫= (fun row => row !! j).


(** [dst] has as many grids as labels, and each of its positions holds a
    grid and a label that sit together at one position of [src]. *)
Definition keeps_pairs (src dst : list X * list Y) : Prop :=
  length dst.1 = length dst.2 /\
  forall k, (k < length dst.1)%nat ->
    exists i, (i < length src.1)%nat /\
      dst.1 !! k = src.1 !! i /\ dst.2 !! k = src.2 !! i.
End Vocabulary.

(** What the assembled sequences hold at the position of each entry. *)
Definition assembled_from {entry trajectory image : Type}
    (simulate : entry -> result trajectory) (to_grid : trajectory -> result image)
    (label_of : entry -> Z)
    (entries : list entry) (Gs : list image) (Ls : list Z) : Prop :=
  length Gs = length entries /\ length Ls = length entries /\
  forall i e, entries !! i = Some e ->
    Ls !! i = Some (label_of e) /\
    exists t gr, simulate e = Ok t /\ to_grid t = Ok gr /\ Gs !! i = Some gr.

(** What the ingested sequences hold at the position of each file. *)
Definition ingested_from (loadtxt : string -> result loaded_array) (n_points res : Z)
    (data : list (string * Z)) (Os : list grid) (Js : list Z) : Prop :=
  length Os = length data /\ length Js = length data /\
  forall i data_i, data !! i = Some data_i ->
    Js !! i = Some data_i.2 /\
    exists loaded gr,
      loadtxt data_i.1 = Ok loaded /\ ingest n_points res loaded = Ok gr /\
      Os !! i = Some gr.

(** ** Inputs for concrete runs *)


(** A small assembler, file system and list of files. *)
Definition toy_simulate (e : Q * Z) : result (list (Q * Q)) :=
  Ok [(e.1, 1%Q); (1%Q, e.1)].
Definition toy_entries : list (Q * Z) := [((1 # 2)%Q, 1); ((3 # 1)%Q, 0); ((2 # 1)%Q, 1)].
Definition toy_loadtxt (file_i : string) : result loaded_array :=
  if String.eqb file_i "001" then Ok (Table [(1, 1); (-3 # 1, -2 # 1); (7 # 1, 7 # 1)]%Q)
  else if String.eqb file_i "002" then Ok (Table [(4 # 1, 0); (0, 5 # 1)]%Q)
  else if String.eqb file_i "003" then Ok (Vector [4 # 1; 5 # 1]%Q)
  else Raise FormatError.
Definition toy_data : list (string * Z) := [("001", 1); ("002", 0)].

Definition toy_Grids : list grid :=
  Eval vm_compute in
    match assemble toy_simulate (fun t => discretize t 2) snd toy_entries with
    | Ok (Gs, _) => Gs
    | Raise _ => []
    end.
Definition toy_Labels : list Z := [1; 0; 1].
Definition toy_orbits : list grid :=
  Eval vm_compute in
    match ingest_all toy_loadtxt 2 2 toy_data with
    | Ok (Os, _) => Os
    | Raise _ => []
    end.

(** ** The cells in binary64

    The arithmetic of the cells as Python runs it: every float is a
    binary64 value and every operation rounds to nearest, ties to even.
    The definitions below are the ones used where rounding decides the
    outcome: the two slice bounds, the resolution and the quotients of the
    normalisation.  The exact definitions above are used for the
    properties that hold whatever the bounds and the quotients are. *)

(** [int(x)] on a float: truncation toward zero; [int(nan)] raises a
    ValueError and [int(inf)] an OverflowError. *)
Definition int64 (x : spec_float) : result Z :=
  match Binary64.int x with
  | Some z => Ok z
  | None => match x with S754_nan => Raise NanToInteger | _ => Raise OverflowError end
  end.

(** The conversion of a Python [int] operand of a float operation: rounded
    to nearest, and an OverflowError when the result would not be finite. *)
Definition float_of_int (n : Z) : result spec_float :=
  match Binary64.of_int n with
  | S754_infinity _ => Raise OverflowError
  | x => Ok x
  end.

(** [int((frac)*Np)] and [int((1-frac)*Np)] *)
Definition train_count (frac : spec_float) (Np : Z) : result Z :=
  Np' ← float_of_int Np; int64 (Binary64.mul frac Np').
Definition val_count (frac : spec_float) (Np : Z) : result Z :=
  Np' ← float_of_int Np;
  int64 (Binary64.mul (Binary64.sub (Binary64.of_int 1) frac) Np').

(** [frac = 2/3] and other quotients of two integers, as the division
    [num/den] of Python gives them. *)
Definition float_ratio (num den : Z) : spec_float :=
  Binary64.truediv (Binary64.of_int num) (Binary64.of_int den).

Section Partitioner64.
Context {G : Type} `{RandomState G}.
Context {X Y : Type}.

(** The second code cell with its arithmetic in binary64. *)
Definition split64 (g : G) (frac : spec_float) (data_SM : list X * list Y)
  : result ((list X * list Y) * (list X * list Y) * G) :=
  let Np := Z.of_nat (length data_SM.1) in
  let X_train := data_SM.1 in
  let y := data_SM.2 in
  '(X', y', g') ← sk_shuffle g X_train y;
  kt ← train_count frac Np;
  let data_train := (slice_to kt X', slice_to kt y') in
  kv ← val_count frac Np;
  let data_val := (slice_from (- kv) X', slice_from (- kv) y') in
  Ok (data_train, data_val, g').
End Partitioner64.

(** [res = int(np.sqrt(2*n_points))] in binary64.  NumPy takes a Python
    integer as int64 or uint64 and has no loop for one outside these
    ranges; the square root of a negative number is NaN. *)
Definition res64 (n_points : Z) : result Z :=
  if (2 * n_points <? - 2 ^ 63) || (2 ^ 64 <=? 2 * n_points) then Raise TypeError
  else int64 (Binary64.sqrt (Binary64.of_int (2 * n_points))).

(** The number a finite binary64 value stands for. *)
Definition float_value (x : spec_float) : Q :=
  match x with
  | S754_finite s m e =>
      let n := if s then Z.neg m else Z.pos m in
      if 0 <=? e then inject_Z (n * 2 ^ e) else Qmake n (Z.to_pos (2 ^ (- e)))
  | _ => 0%Q
  end.

(** The normalisation loop on a table of binary64 entries. *)

(** [v > m] on [np.float64]: false when either is NaN. *)
Definition gt64 (v m : spec_float) : bool :=
  match SFcompare v m with Some Gt => true | _ => false end.

Definition py_max64 (l : list spec_float) : result spec_float :=
  match l with
  | [] => Raise EmptyMax
  | x :: rest => Ok (fold_left (fun m v => if gt64 v m then v else m) rest x)
  end.

Definition max_abs64_col0 (test_i : list (spec_float * spec_float)) : result spec_float :=
  py_max64 (map (fun r => SFabs r.1) test_i).
Definition max_abs64_col1 (test_i : list (spec_float * spec_float)) : result spec_float :=
  py_max64 (map (fun r => SFabs r.2) test_i).

Fixpoint normalise64_loop (test_i todo : list (spec_float * spec_float))
    (testX : list (spec_float * spec_float))
  : result (list (spec_float * spec_float)) :=
  match todo with
  | [] => Ok testX
  | row :: rest =>
      mx ← max_abs64_col0 test_i;
      my ← max_abs64_col1 test_i;
      normalise64_loop test_i rest
        (testX ++ [(Binary64.truediv row.1 mx, Binary64.truediv row.2 my)])
  end.

Definition normalise64 (test_i : list (spec_float * spec_float))
  : result (list (spec_float * spec_float)) :=
  normalise64_loop test_i test_i [].

(** The spec's normalisation in binary64: an axis whose maximum is zero is
    left as it is. *)
Definition is_zero64 (x : spec_float) : bool :=
  match x with S754_zero _ => true | _ => false end.

Definition normalise64_guarded (test_i : list (spec_float * spec_float))
  : result (list (spec_float * spec_float)) :=
  match max_abs64_col0 test_i, max_abs64_col1 test_i with
  | Ok mx, Ok my =>
      Ok (map (fun row =>
                 (if is_zero64 mx then row.1 else Binary64.truediv row.1 mx,
                  if is_zero64 my then row.2 else Binary64.truediv row.2 my)) test_i)
  | _, _ => Ok []
  end.

(** A number: neither an infinity nor NaN. *)
Definition is_number64 (x : spec_float) : Prop :=
  match x with
  | S754_zero _ | S754_finite _ _ _ => True
  | S754_infinity _ | S754_nan => False
  end.

(** A value an [np.float64] can hold: the mantissa and the exponent of a
    finite value are those of a binary64 number. *)
Definition is_binary64 (x : spec_float) : Prop :=
  valid_binary Binary64.prec Binary64.emax x = true.

(** A train fraction: a number between 0 and 1. *)
Definition is_fraction64 (frac : spec_float) : Prop :=
  is_number64 frac /\ (0 <= float_value frac)%Q /\ (float_value frac <= 1)%Q.

(** A number between 0 and [N]: zero, or a positive number m * 2^e with
    e <= 0 and m <= N * 2^(-e). *)
Definition bounded_by (N : Z) (x : spec_float) : Prop :=
  match x with
  | S754_zero _ => True
  | S754_finite false m e => e <= 0 /\ Z.pos m <= N * 2 ^ (- e)
  | _ => False
  end.

(** An absolute value of a number: zero or a positive number. *)
Definition is_magnitude (x : spec_float) : Prop :=
  match x with
  | S754_zero _ | S754_finite false _ _ => True
  | _ => False
  end.

(** A table whose x axis is zero throughout, and one whose quotients are
    not exact: (0.1, 1), (0.3, 2). *)
Definition rows64_zero_axis : list (spec_float * spec_float) :=
  [(Binary64.of_int 0, Binary64.of_int 1); (Binary64.of_int 0, Binary64.of_int (- 2))].
Definition rows64_tenths : list (spec_float * spec_float) :=
  [(float_ratio 1 10, Binary64.of_int 1); (float_ratio 3 10, Binary64.of_int 2)].

(** ** The loop over the files with the lists it leaves behind

    [data_JHMAP_orbits] and [data_JHMAP_labels] are lists of the notebook;
    when the loop stops at an exception they keep what was appended so
    far.  The result is the two lists and the exception, if any. *)

Section JHMAPLists.
Variable loadtxt : string -> result loaded_array.
Variables n_points res : Z.

Fixpoint ingest_loop_lists (data : list (string * Z))
    (data_JHMAP_orbits : list grid) (data_JHMAP_labels : list Z)
  : list grid * list Z * option exn :=
  match data with
  | [] => (data_JHMAP_orbits, data_JHMAP_labels, None)
  | data_i :: rest =>
      let file_i := data_i.1 in
      let class_i := data_i.2 in
      match loadtxt file_i with
      | Raise e => (data_JHMAP_orbits, data_JHMAP_labels, Some e)
      | Ok loaded =>
          match ingest n_points res loaded with
          | Raise e => (data_JHMAP_orbits, data_JHMAP_labels, Some e)
          | Ok testX =>
              ingest_loop_lists rest (data_JHMAP_orbits ++ [testX])
                (data_JHMAP_labels ++ [class_i])
          end
      end
  end.
End JHMAPLists.

(** ** Vocabulary of the further properties *)


(** * Properties *)

(** ** Arithmetic of the bounds *)

Lemma py_int_nonneg_floor (x : Q) : (0 <= x)%Q -> py_int x = Qfloor x.
Proof.
  destruct x as [n d]. unfold Qle, py_int, Qfloor. simpl. intros Hn.
  apply Z.quot_div_nonneg; lia.
Qed.

Lemma ceil_sqrt_spec (m : Z) :
  0 < m -> (ceil_sqrt m - 1) * (ceil_sqrt m - 1) < m <= ceil_sqrt m * ceil_sqrt m.
Proof.
  intros Hm. unfold ceil_sqrt.
  pose proof (Z.sqrt_spec m ltac:(lia)) as [Hlo Hhi].
  pose proof (Z.sqrt_nonneg m) as Hs.
  destruct (Z.eqb_spec (Z.sqrt m * Z.sqrt m) m) as [Heq|Hne]; nia.
Qed.

Lemma resolution_nonneg (n_points : Z) :
  0 <= n_points -> resolution n_points = Ok (Z.sqrt (2 * n_points)).
Proof.
  intros Hn. unfold resolution.
  destruct (Z.ltb_spec (2 * n_points) 0); [lia | reflexivity].
Qed.

Lemma Qfloor_frac_bounds (frac : Q) (N : Z) :
  (0 <= frac)%Q -> (frac <= 1)%Q -> 0 <= N ->
  0 <= Qfloor (frac * inject_Z N) <= N.
Proof.
  intros H0 H1 HN.
  assert (HNq : (0 <= inject_Z N)%Q) by (rewrite (Zle_Qle 0 N) in HN; exact HN).
  split.
  - change 0 with (Qfloor (inject_Z 0)). apply Qfloor_resp_le.
    apply Qmult_le_0_compat; assumption.
  - rewrite <- (Qfloor_Z N) at 2. apply Qfloor_resp_le.
    apply Qle_trans with (1 * inject_Z N)%Q.
    + apply Qmult_le_compat_r; assumption.
    + rewrite Qmult_1_l. apply Qle_refl.
Qed.

Lemma one_minus_frac_bounds (frac : Q) :
  (0 <= frac)%Q -> (frac <= 1)%Q -> (0 <= 1 - frac)%Q /\ (1 - frac <= 1)%Q.
Proof.
  intros H0 H1. split.
  - unfold Qminus. rewrite <- Qle_minus_iff. exact H1.
  - apply Qle_trans with (1 + - 0)%Q.
    + apply Qplus_le_compat; [apply Qle_refl | apply Qopp_le_compat; exact H0].
    + apply Qle_lteq. right. ring.
Qed.

(** The two truncated counts never add up to more than the length. *)
Lemma Qfloor_complementary (frac : Q) (N : Z) :
  Qfloor (frac * inject_Z N) + Qfloor ((1 - frac) * inject_Z N) <= N.
Proof.
  rewrite Zle_Qle, inject_Z_plus.
  apply Qle_trans with (frac * inject_Z N + (1 - frac) * inject_Z N)%Q.
  - apply Qplus_le_compat; apply Qfloor_le.
  - apply Qle_lteq. right. ring.
Qed.

(** ** Slices *)

Section SliceFacts.
Context {A : Type}.
Implicit Types d : list A.

Lemma slice_to_nonneg (k : Z) d : 0 <= k -> slice_to k d = take (Z.to_nat k) d.
Proof.
  intros Hk. unfold slice_to, adjust_index.
  destruct (Z.ltb_spec k 0); [lia|].
  destruct (Z.le_gt_cases k (Z.of_nat (length d))).
  - rewrite Z.min_l by lia. reflexivity.
  - rewrite Z.min_r by lia. rewrite Nat2Z.id.
    rewrite !take_ge by lia. reflexivity.
Qed.

Lemma slice_from_zero d : slice_from 0 d = d.
Proof.
  unfold slice_from, adjust_index. simpl.
  rewrite Z.min_l by lia. reflexivity.
Qed.

Lemma slice_from_negative (k : Z) d :
  0 < k -> slice_from (- k) d = drop (length d - Z.to_nat k) d.
Proof.
  intros Hk. unfold slice_from, adjust_index.
  destruct (Z.ltb_spec (- k) 0); [|lia].
  f_equal. lia.
Qed.

Lemma data_train_of_floor (frac : Q) (N : Z) d :
  (0 <= frac)%Q -> 0 <= N ->
  data_train_of frac N d = take (Z.to_nat (Qfloor (frac * inject_Z N))) d.
Proof.
  intros H0 HN. unfold data_train_of.
  assert (Hp : (0 <= frac * inject_Z N)%Q).
  { apply Qmult_le_0_compat; [assumption|]. rewrite (Zle_Qle 0 N) in HN. exact HN. }
  rewrite py_int_nonneg_floor by exact Hp.
  apply slice_to_nonneg.
  change 0 with (Qfloor (inject_Z 0)). apply Qfloor_resp_le. exact Hp.
Qed.

Lemma data_val_of_floor (frac : Q) (N : Z) d :
  (frac <= 1)%Q -> 0 <= N -> 1 <= Qfloor ((1 - frac) * inject_Z N) ->
  data_val_of frac N d = drop (length d - Z.to_nat (Qfloor ((1 - frac) * inject_Z N))) d.
Proof.
  intros H1 HN Hv. unfold data_val_of.
  assert (Hp : (0 <= (1 - frac) * inject_Z N)%Q).
  { apply Qmult_le_0_compat.
    - unfold Qminus. rewrite <- Qle_minus_iff. exact H1.
    - rewrite (Zle_Qle 0 N) in HN. exact HN. }
  rewrite py_int_nonneg_floor by exact Hp.
  apply slice_from_negative. lia.
Qed.

Lemma data_val_of_zero (frac : Q) (N : Z) d :
  py_int ((1 - frac) * inject_Z N) = 0 -> data_val_of frac N d = d.
Proof.
  intros Hz. unfold data_val_of. rewrite Hz. apply slice_from_zero.
Qed.
End SliceFacts.

(** ** The shuffle *)

Section ShuffleFacts.
Context {A : Type}.
Implicit Types a : list A.

Lemma safe_indexing_in_range a (indices : list nat) :
  Forall (fun i => (i < length a)%nat) indices ->
  exists a', safe_indexing a indices = Ok a' /\
    length a' = length indices /\
    forall k i, indices !! k = Some i -> a' !! k = a !! i.
Proof.
  induction 1 as [|i rest Hi _ IH]; simpl.
  - exists []. split; [reflexivity|]. split; [reflexivity|].
    intros k i Hk. rewrite lookup_nil in Hk. discriminate Hk.
  - destruct IH as (r & Hr & Hlen & Hget).
    destruct (lookup_lt_is_Some_2 a i Hi) as [x Hx].
    rewrite Hx, Hr. simpl. exists (x :: r).
    split; [reflexivity|]. split; [simpl; congruence|].
    intros [|k] j Hk; simpl in *.
    + inversion Hk. subst. symmetry. exact Hx.
    + apply Hget. exact Hk.
Qed.

Lemma permutation_in_range (p : list nat) (n : nat) :
  p ≡ₚ seq 0 n -> Forall (fun i => (i < n)%nat) p.
Proof.
  intros Hp. apply Forall_forall. intros i Hi.
  rewrite Hp in Hi. apply elem_of_seq in Hi. lia.
Qed.
End ShuffleFacts.

Section PartitionerFacts.
Context {G : Type} `{RandomState G}.
Context {X Y : Type}.
Implicit Types (g : G) (Xs : list X) (ys : list Y).

Lemma sk_shuffle_Ok g Xs ys :
  length Xs = length ys ->
  exists Xs' ys',
    sk_shuffle g Xs ys = Ok (Xs', ys', (rs_shuffle_arange g (length Xs)).2) /\
    shuffled_through (rs_shuffle_arange g (length Xs)).1 Xs ys Xs' ys'.
Proof.
  intros Hlen. unfold sk_shuffle.
  destruct (decide (length Xs = length ys)) as [_|Hne]; [|contradiction].
  pose proof (rs_shuffle_arange_perm g (length Xs)) as Hperm.
  destruct (rs_shuffle_arange g (length Xs)) as [p g'] eqn:Hdraw. simpl in *.
  pose proof (permutation_in_range p _ Hperm) as Hrange.
  destruct (safe_indexing_in_range Xs p Hrange) as (Xs' & HX & HlX & HgX).
  assert (Hrange' : Forall (fun i => (i < length ys)%nat) p) by (rewrite <- Hlen; exact Hrange).
  destruct (safe_indexing_in_range ys p Hrange') as (ys' & Hy & Hly & Hgy).
  exists Xs', ys'. rewrite HX, Hy. simpl. split; [reflexivity|].
  assert (Hpl : length p = length Xs).
  { rewrite (Permutation_length Hperm). apply length_seq. }
  repeat split; try congruence.
  - apply HgX. assumption.
  - apply Hgy. assumption.
Qed.

Lemma sk_shuffle_inconsistent g Xs ys :
  length Xs <> length ys -> sk_shuffle g Xs ys = Raise InconsistentLength.
Proof.
  intros Hne. unfold sk_shuffle.
  destruct (decide (length Xs = length ys)); [contradiction | reflexivity].
Qed.

(** The cell after a successful shuffle: the slices of the shuffled arrays. *)
Lemma split_after_shuffle g (frac : Q) Xs ys Xs' ys' g' :
  sk_shuffle g Xs ys = Ok (Xs', ys', g') ->
  split g frac (Xs, ys) =
    Ok ((data_train_of frac (Z.of_nat (length Xs)) Xs',
         data_train_of frac (Z.of_nat (length Xs)) ys'),
        (data_val_of frac (Z.of_nat (length Xs)) Xs',
         data_val_of frac (Z.of_nat (length Xs)) ys'),
        g').
Proof. intros Hs. unfold split. simpl. rewrite Hs. reflexivity. Qed.

Lemma split_inconsistent g (frac : Q) Xs ys :
  length Xs <> length ys -> split g frac (Xs, ys) = Raise InconsistentLength.
Proof.
  intros Hne. unfold split. simpl.
  rewrite sk_shuffle_inconsistent by exact Hne. reflexivity.
Qed.
End PartitionerFacts.

(** ** The partition *)

Section PartitionTheorems.
Context {G : Type} `{RandomState G}.
Context {X Y : Type}.
Implicit Types (g : G) (Xs : list X) (ys : list Y).

(** C9.  When [int((1 - frac) * N)] is 0, the slice
    [d[-int((1-frac)*Np):]] is [d[0:]]: the validation subset is the
    entire shuffled dataset, which is not empty unless the dataset is. *)
Theorem validation_is_entire_dataset_when_count_is_zero g (frac : Q) Xs ys :
  length Xs = length ys ->
  py_int ((1 - frac) * inject_Z (Z.of_nat (length Xs))) = 0 ->
  exists Xs' ys' g' data_train,
    sk_shuffle g Xs ys = Ok (Xs', ys', g') /\
    split g frac (Xs, ys) = Ok (data_train, (Xs', ys'), g') /\
    length Xs' = length Xs /\ length ys' = length ys /\
    (Xs <> [] -> Xs' <> []).
Proof.
  intros Hlen Hz.
  destruct (sk_shuffle_Ok g Xs ys Hlen) as (Xs' & ys' & Hs & Hthrough).
  exists Xs', ys', (rs_shuffle_arange g (length Xs)).2. eexists.
  split; [exact Hs|].
  rewrite (split_after_shuffle g frac Xs ys Xs' ys' _ Hs).
  rewrite !data_val_of_zero by exact Hz.
  split; [reflexivity|].
  destruct Hthrough as (_ & HlX & Hly & _).
  split; [exact HlX|]. split; [congruence|].
  intros Hne ->. simpl in HlX. destruct Xs; [contradiction | discriminate].
Qed.

(** The counts that make the validation slice start at 0. *)
Lemma val_count_zero_when_below_one (frac : Q) (N : Z) :
  (0 <= (1 - frac) * inject_Z N)%Q -> ((1 - frac) * inject_Z N < 1)%Q ->
  py_int ((1 - frac) * inject_Z N) = 0.
Proof.
  intros Hlo Hhi. rewrite py_int_nonneg_floor by exact Hlo.
  pose proof (Qfloor_resp_le _ _ Hlo) as H0. change (Qfloor 0) with 0 in H0.
  assert (H1 : Qfloor ((1 - frac) * inject_Z N) < 1).
  { rewrite Zlt_Qlt. eapply Qle_lt_trans; [apply Qfloor_le | exact Hhi]. }
  lia.
Qed.

(** With a validation count of at least 1, the two slices read disjoint
    index ranges of the shuffled arrays: the training subset ends at or
    before the position where the validation subset starts. *)
Lemma split_index_ranges_disjoint g (frac : Q) Xs ys Xs' ys' g' :
  (0 <= frac)%Q -> (frac <= 1)%Q ->
  1 <= Qfloor ((1 - frac) * inject_Z (Z.of_nat (length Xs))) ->
  sk_shuffle g Xs ys = Ok (Xs', ys', g') ->
  exists stop start : nat,
    (stop <= start)%nat /\
    split g frac (Xs, ys) =
      Ok ((take stop Xs', take stop ys'), (drop start Xs', drop start ys'), g').
Proof.
  intros H0 H1 Hv Hs.
  assert (Hlen : length Xs = length ys).
  { destruct (decide (length Xs = length ys)) as [E|N]; [exact E|].
    rewrite sk_shuffle_inconsistent in Hs by exact N. discriminate Hs. }
  destruct (sk_shuffle_Ok g Xs ys Hlen) as (Xs2 & ys2 & Hs2 & Hthrough).
  rewrite Hs in Hs2.
  assert (HX : Xs2 = Xs') by congruence.
  assert (Hy : ys2 = ys') by congruence.
  subst Xs2 ys2. clear Hs2.
  destruct Hthrough as (_ & HlX & Hly & _).
  exists (Z.to_nat (Qfloor (frac * inject_Z (Z.of_nat (length Xs))))),
         (length Xs - Z.to_nat (Qfloor ((1 - frac) * inject_Z (Z.of_nat (length Xs)))))%nat.
  pose proof (Qfloor_complementary frac (Z.of_nat (length Xs))) as Hc.
  pose proof (Qfloor_frac_bounds frac _ H0 H1 (Nat2Z.is_nonneg (length Xs))) as Ht.
  split; [lia|].
  rewrite (split_after_shuffle g frac Xs ys Xs' ys' g' Hs).
  rewrite !data_train_of_floor by (assumption || lia).
  rewrite !data_val_of_floor by (assumption || lia).
  rewrite HlX, Hly. reflexivity.
Qed.

End PartitionTheorems.

(** ** Pairing of grids and labels *)

Section Pairing.
Context {X Y : Type}.
Implicit Types (src dst : list X * list Y).

Lemma keeps_pairs_take src dst (m : nat) :
  keeps_pairs src dst -> keeps_pairs src (take m dst.1, take m dst.2).
Proof.
  intros [Hlen Hget]. split; simpl.
  - rewrite !length_take. lia.
  - intros k Hk. rewrite length_take in Hk.
    destruct (Hget k ltac:(lia)) as (i & Hi & H1 & H2).
    exists i. rewrite !lookup_take_lt by lia. auto.
Qed.

Lemma keeps_pairs_drop src dst (m : nat) :
  keeps_pairs src dst -> keeps_pairs src (drop m dst.1, drop m dst.2).
Proof.
  intros [Hlen Hget]. split; simpl.
  - rewrite !length_drop. lia.
  - intros k Hk. rewrite length_drop in Hk.
    destruct (Hget (m + k)%nat ltac:(lia)) as (i & Hi & H1 & H2).
    exists i. rewrite !lookup_drop. auto.
Qed.

Lemma shuffled_through_keeps_pairs (p : list nat)
    (Xs : list X) (ys : list Y) (Xs' : list X) (ys' : list Y) :
  shuffled_through p Xs ys Xs' ys' -> keeps_pairs (Xs, ys) (Xs', ys').
Proof.
  intros (Hperm & HlX & Hly & Hget). split; simpl; [congruence|].
  intros k Hk.
  assert (Hpl : length p = length Xs).
  { rewrite (Permutation_length Hperm). apply length_seq. }
  destruct (lookup_lt_is_Some_2 p k ltac:(lia)) as [i Hi].
  exists i. split.
  - pose proof (permutation_in_range p _ Hperm) as Hrange.
    rewrite Forall_forall in Hrange. apply Hrange.
    apply list_elem_of_lookup. exists k. exact Hi.
  - apply Hget. exact Hi.
Qed.

(** Both slices of the cell cut the two arrays at the same position. *)
Lemma keeps_pairs_slices src dst (frac : Q) (Np : Z) :
  keeps_pairs src dst ->
  keeps_pairs src (data_train_of frac Np dst.1, data_train_of frac Np dst.2) /\
  keeps_pairs src (data_val_of frac Np dst.1, data_val_of frac Np dst.2).
Proof.
  intros Hk. pose proof Hk as [Hlen _].
  unfold data_train_of, data_val_of, slice_to, slice_from.
  rewrite <- Hlen. split.
  - apply (keeps_pairs_take src dst). exact Hk.
  - apply (keeps_pairs_drop src dst). exact Hk.
Qed.
End Pairing.

Section AssemblerFacts.
Context {entry trajectory image : Type}.
Variable simulate : entry -> result trajectory.
Variable to_grid : trajectory -> result image.
Variable label_of : entry -> Z.

Lemma assemble_loop_appends (entries : list entry) :
  forall Gs0 Ls0 Gs Ls,
    assemble_loop simulate to_grid label_of entries Gs0 Ls0 = Ok (Gs, Ls) ->
    exists Gs1 Ls1, Gs = Gs0 ++ Gs1 /\ Ls = Ls0 ++ Ls1 /\
      assembled_from simulate to_grid label_of entries Gs1 Ls1.
Proof.
  induction entries as [|e rest IH]; intros Gs0 Ls0 Gs Ls Hrun; simpl in Hrun.
  - inversion Hrun. subst. exists [], []. rewrite !app_nil_r.
    split; [reflexivity|]. split; [reflexivity|].
    split; [reflexivity|]. split; [reflexivity|].
    intros i x Hx. rewrite lookup_nil in Hx. discriminate Hx.
  - destruct (bool_decide _); [|discriminate Hrun].
    destruct (simulate e) as [t|] eqn:Hsim; [|discriminate Hrun].
    simpl in Hrun.
    destruct (to_grid t) as [gr|] eqn:Hgrid; [|discriminate Hrun].
    simpl in Hrun.
    destruct (IH _ _ _ _ Hrun) as (Gs1 & Ls1 & -> & -> & HlG & HlL & Hget).
    exists (gr :: Gs1), (label_of e :: Ls1).
    rewrite <- !app_assoc. split; [reflexivity|]. split; [reflexivity|].
    split; [simpl; congruence|]. split; [simpl; congruence|].
    intros [|i] e' He'; simpl in *.
    + inversion He'. subst e'. split; [reflexivity|]. exists t, gr. auto.
    + apply Hget. exact He'.
Qed.
End AssemblerFacts.

Section IngestionFacts.
Variable loadtxt : string -> result loaded_array.
Variables n_points res : Z.

Lemma ingest_loop_appends (data : list (string * Z)) :
  forall Os0 Js0 Os Js,
    ingest_loop loadtxt n_points res data Os0 Js0 = Ok (Os, Js) ->
    exists Os1 Js1, Os = Os0 ++ Os1 /\ Js = Js0 ++ Js1 /\
      ingested_from loadtxt n_points res data Os1 Js1.
Proof.
  induction data as [|data_i rest IH]; intros Os0 Js0 Os Js Hrun; simpl in Hrun.
  - inversion Hrun. subst. exists [], []. rewrite !app_nil_r.
    split; [reflexivity|]. split; [reflexivity|].
    split; [reflexivity|]. split; [reflexivity|].
    intros i x Hx. rewrite lookup_nil in Hx. discriminate Hx.
  - destruct (loadtxt data_i.1) as [loaded|] eqn:Hload; [|discriminate Hrun].
    simpl in Hrun.
    destruct (ingest n_points res loaded) as [gr|] eqn:Hgrid; [|discriminate Hrun].
    simpl in Hrun.
    destruct (IH _ _ _ _ Hrun) as (Os1 & Js1 & -> & -> & HlO & HlJ & Hget).
    exists (gr :: Os1), (data_i.2 :: Js1).
    rewrite <- !app_assoc. split; [reflexivity|]. split; [reflexivity|].
    split; [simpl; congruence|]. split; [simpl; congruence|].
    intros [|i] d' Hd'; simpl in *.
    + inversion Hd'. subst d'. split; [reflexivity|]. exists loaded, gr. auto.
    + apply Hget. exact Hd'.
Qed.
End IngestionFacts.

(** C2.  Grids and labels have equal length and stay paired position by
    position after assembly, after the shuffle-and-split cell, and after
    the ingestion of the external trajectories; the shuffle reads both
    sequences through one permutation of the indices. *)
Theorem grids_and_labels_stay_paired
    {entry trajectory image G Y : Type} `{RandomState G}
    (simulate : entry -> result trajectory) (to_grid : trajectory -> result image)
    (label_of : entry -> Z) (entries : list entry) (Gs : list image) (Ls : list Z)
    (g : G) (frac : Q) (Xs : list image) (ys : list Y)
    (loadtxt : string -> result loaded_array) (n_points res : Z)
    (data : list (string * Z)) (Os : list grid) (Js : list Z) :
  assemble simulate to_grid label_of entries = Ok (Gs, Ls) ->
  length Xs = length ys ->
  ingest_all loadtxt n_points res data = Ok (Os, Js) ->
  (length Gs = length Ls /\ assembled_from simulate to_grid label_of entries Gs Ls) /\
  (exists Xs' ys' g' data_train data_val,
     sk_shuffle g Xs ys = Ok (Xs', ys', g') /\
     shuffled_through (rs_shuffle_arange g (length Xs)).1 Xs ys Xs' ys' /\
     split g frac (Xs, ys) = Ok (data_train, data_val, g') /\
     keeps_pairs (Xs, ys) data_train /\ keeps_pairs (Xs, ys) data_val) /\
  (length Os = length Js /\ ingested_from loadtxt n_points res data Os Js).
Proof.
  intros Hasm Hlen Hing. split; [|split].
  - destruct (assemble_loop_appends _ _ _ _ _ _ _ _ Hasm) as (Gs1 & Ls1 & -> & -> & Hfrom).
    simpl. split; [|exact Hfrom].
    destruct Hfrom as (HlG & HlL & _). congruence.
  - destruct (sk_shuffle_Ok g Xs ys Hlen) as (Xs' & ys' & Hs & Hthrough).
    exists Xs', ys', (rs_shuffle_arange g (length Xs)).2. eexists. eexists.
    split; [exact Hs|]. split; [exact Hthrough|].
    split; [apply split_after_shuffle; exact Hs|].
    apply (keeps_pairs_slices (Xs, ys) (Xs', ys')).
    eapply shuffled_through_keeps_pairs. exact Hthrough.
  - destruct (ingest_loop_appends _ _ _ _ _ _ _ _ Hing) as (Os1 & Js1 & -> & -> & Hfrom).
    simpl. split; [|exact Hfrom].
    destruct Hfrom as (HlO & HlJ & _). congruence.
Qed.

(** ** Normalisation *)



Lemma py_max_nonempty (l : list Q) : l <> [] -> exists m, py_max l = Ok m.
Proof. destruct l as [|x rest]; [contradiction|]. intros _. eexists. reflexivity. Qed.

Lemma max_abs_cols_nonempty (test_i : list (Q * Q)) :
  test_i <> [] ->
  exists mx my, max_abs_col0 test_i = Ok mx /\ max_abs_col1 test_i = Ok my.
Proof.
  intros Hne. unfold max_abs_col0, max_abs_col1.
  destruct test_i as [|row rest]; [contradiction|]. simpl. eauto.
Qed.



Lemma normalise_loop_maps (test_i : list (Q * Q)) (mx my : Q) :
  max_abs_col0 test_i = Ok mx -> max_abs_col1 test_i = Ok my ->
  forall todo testX,
    normalise_loop test_i todo testX =
      Ok (testX ++ map (fun row => (true_divide row.1 mx, true_divide row.2 my)) todo).
Proof.
  intros Hx Hy. induction todo as [|row rest IH]; intros testX; simpl.
  - rewrite app_nil_r. reflexivity.
  - rewrite Hx, Hy. simpl. rewrite IH, <- app_assoc. reflexivity.
Qed.

(** The loop never raises: [max] is only called when there is a row. *)
Lemma normalise_Ok (test_i : list (Q * Q)) :
  normalise test_i =
    Ok (map (fun row => (true_divide row.1 (axis_max0 test_i),
                         true_divide row.2 (axis_max1 test_i))) test_i).
Proof.
  unfold normalise. destruct test_i as [|row rest] eqn:E; [reflexivity|].
  rewrite <- E.
  destruct (max_abs_cols_nonempty test_i) as (mx & my & Hx & Hy); [congruence|].
  rewrite (normalise_loop_maps test_i mx my Hx Hy).
  unfold axis_max0, axis_max1. rewrite Hx, Hy. reflexivity.
Qed.

(** ** Reshape *)

Section ReshapeFacts.
Context {A : Type}.

Lemma length_ravel (l : list (A * A)) : length (ravel l) = (2 * length l)%nat.
Proof. unfold ravel. induction l as [|p l IH]; simpl in *; lia. Qed.

Lemma lookup_ravel_even (l : list (A * A)) (k : nat) :
  ravel l !! (2 * k)%nat = fst <$> l !! k.
Proof.
  revert k. induction l as [|p l IH]; intros k.
  - destruct k; reflexivity.
  - destruct k as [|k]; [reflexivity|].
    replace (2 * S k)%nat with (S (S (2 * k))) by lia.
    simpl. apply IH.
Qed.

Lemma lookup_ravel_odd (l : list (A * A)) (k : nat) :
  ravel l !! (2 * k + 1)%nat = snd <$> l !! k.
Proof.
  revert k. induction l as [|p l IH]; intros k.
  - destruct k; reflexivity.
  - destruct k as [|k]; [reflexivity|].
    replace (2 * S k + 1)%nat with (S (S (2 * k + 1))) by lia.
    simpl. apply IH.
Qed.

Lemma length_chunks (rows cols : nat) (flat : list A) :
  length (chunks rows cols flat) = rows.
Proof. revert flat. induction rows as [|r IH]; intros flat; simpl; [|rewrite IH]; reflexivity. Qed.

Lemma lookup_chunks (rows cols : nat) (flat : list A) (i : nat) :
  (i < rows)%nat -> chunks rows cols flat !! i = Some (take cols (drop (i * cols) flat)).
Proof.
  revert flat i. induction rows as [|r IH]; intros flat i Hi; [lia|].
  destruct i as [|i]; simpl.
  - reflexivity.
  - rewrite IH by lia. rewrite drop_drop. reflexivity.
Qed.

Lemma chunks_row_length (rows cols : nat) (flat : list A) :
  length flat = (rows * cols)%nat ->
  Forall (fun row => length row = cols) (chunks rows cols flat).
Proof.
  revert flat. induction rows as [|r IH]; intros flat Hlen; simpl; constructor.
  - rewrite length_take. nia.
  - apply IH. rewrite length_drop. nia.
Qed.

(** Item (i, j) of the reshaped array is item [i * cols + j] of the flat one. *)
Lemma lookup_chunks_cell (rows cols : nat) (flat : list A) (i j : nat) :
  (i < rows)%nat -> (j < cols)%nat ->
  chunks rows cols flat !! i ≫= (fun row => row !! j) = flat !! (i * cols + j)%nat.
Proof.
  intros Hi Hj. rewrite lookup_chunks by exact Hi. simpl.
  rewrite lookup_take_lt by exact Hj. apply lookup_drop.
Qed.

Lemma reshape_Ok_iff (res : Z) (flat : list A) :
  (exists g, reshape res flat = Ok g) <->
  0 <= res /\ Z.of_nat (length flat) = res * res.
Proof.
  unfold reshape.
  destruct (Z.leb_spec 0 res) as [Hr|Hr];
    destruct (Z.eqb_spec (Z.of_nat (length flat)) (res * res)) as [Hs|Hs]; simpl; split.
  all: try (intros _; split; assumption).
  all: try (intros _; eexists; reflexivity).
  all: try (intros [g Hg]; discriminate Hg).
  all: intros [? ?]; lia.
Qed.

Lemma reshape_raises (res : Z) (flat : list A) :
  (exists g, reshape res flat = Ok g) \/ raises (reshape res flat) ShapeError.
Proof.
  unfold reshape, raises.
  destruct ((0 <=? res) && (Z.of_nat (length flat) =? res * res)); eauto.
Qed.
End ReshapeFacts.

(** [discretize] either returns the reshaped array or raises the shape
    error, and it returns exactly when twice the number of rows is
    [res * res]. *)
Lemma discretize_unfold (test_i : list (Q * Q)) (res : Z) :
  discretize test_i res =
    reshape res (ravel (map (fun row => (true_divide row.1 (axis_max0 test_i),
                                         true_divide row.2 (axis_max1 test_i))) test_i)).
Proof. unfold discretize. rewrite normalise_Ok. reflexivity. Qed.

Lemma discretize_Ok_iff (test_i : list (Q * Q)) (res : Z) :
  (exists g, discretize test_i res = Ok g) <->
  0 <= res /\ 2 * Z.of_nat (length test_i) = res * res.
Proof.
  rewrite discretize_unfold.
  etransitivity; [apply reshape_Ok_iff|].
  rewrite length_ravel, length_map.
  split; intros [? ?]; split; lia.
Qed.

Lemma discretize_raises_only_ShapeError (test_i : list (Q * Q)) (res : Z) :
  (exists g, discretize test_i res = Ok g) \/ raises (discretize test_i res) ShapeError.
Proof. rewrite discretize_unfold. apply reshape_raises. Qed.

Lemma length_slice_to_nonneg {A : Type} (k : Z) (d : list A) :
  0 <= k -> Z.of_nat (length (slice_to k d)) = Z.min k (Z.of_nat (length d)).
Proof.
  intros Hk. rewrite slice_to_nonneg by exact Hk. rewrite length_take. lia.
Qed.

(** ** Division by the axis maximum *)




(** ** Shape errors *)

(** A file with a single row is read as a one-dimensional array; unless
    the truncation leaves nothing of it, the loop stops at its first
    [test_i[i][0]] with an index error, before any reshape. *)
Lemma ingest_vector_raises_index_error (n_points res : Z) (items : list Q) :
  slice_to n_points items <> [] ->
  raises (ingest n_points res (Vector items)) IndexOutOfRange.
Proof.
  intros Hne. unfold ingest, raises.
  destruct (slice_to n_points items); [contradiction | reflexivity].
Qed.

(** C5 (as amended).  A trajectory of (x, y) rows is flattened to twice as
    many numbers before the reshape, so for a resolution r >= 0,
    discretize raises the shape error if and only if 2 * len(t) differs
    from r * r, and returns a grid otherwise; ingest of a file read as a
    table of rows raises it whenever the truncated row count is below
    n_points, provided r * r = 2 * n_points. *)
Theorem discretize_shape_error_iff_size_mismatch (test_i : list (Q * Q)) (res : Z) :
  0 <= res ->
  (raises (discretize test_i res) ShapeError <->
     2 * Z.of_nat (length test_i) <> res * res) /\
  (2 * Z.of_nat (length test_i) = res * res -> exists g, discretize test_i res = Ok g) /\
  (forall (n_points : Z) (loaded : list (Q * Q)),
     0 <= n_points -> res * res = 2 * n_points ->
     Z.of_nat (length (slice_to n_points loaded)) < n_points ->
     raises (ingest n_points res (Table loaded)) ShapeError).
Proof.
  intros Hres.
  assert (Hiff : forall t : list (Q * Q),
             raises (discretize t res) ShapeError <-> 2 * Z.of_nat (length t) <> res * res).
  { intros t. pose proof (discretize_Ok_iff t res) as Hok.
    destruct (discretize_raises_only_ShapeError t res) as [Hg|Hr]; split.
    - intros Hr. destruct Hg as [g Hg]. unfold raises in Hr. congruence.
    - intros Hne. apply Hok in Hg. lia.
    - intros _ Heq. destruct (proj2 Hok (conj Hres Heq)) as [g Hg].
      unfold raises in Hr. congruence.
    - intros _. exact Hr. }
  split; [apply Hiff|]. split.
  - intros Heq. apply discretize_Ok_iff. split; assumption.
  - intros n_points loaded Hn Hsq Hlt. unfold ingest. apply Hiff. lia.
Qed.

(** ** The ingested grid *)








(** C10.  When res * res = 2 * n_points and the file has at least
    n_points rows, the ingested grid is the row-major reshape of the
    interleaved sequence x0, y0, x1, y1, ...: with k = res * i + j, cell
    (i, j) holds the normalised x of point k / 2 when k is even and the
    normalised y of point (k - 1) / 2 when k is odd. *)
Theorem grid_is_row_major_reshape_of_interleaved_rows
    (n_points res : Z) (loaded : list (Q * Q)) :
  0 <= res -> res * res = 2 * n_points -> n_points <= Z.of_nat (length loaded) ->
  exists gr,
    ingest n_points res (Table loaded) = Ok gr /\
    Z.of_nat (length (slice_to n_points loaded)) = n_points /\
    has_shape2 (Z.to_nat res) (Z.to_nat res) gr /\
    forall i j : nat, (i < Z.to_nat res)%nat -> (j < Z.to_nat res)%nat ->
      let test_i := slice_to n_points loaded in
      let k := (Z.to_nat res * i + j)%nat in
      (Nat.even k = true ->
         exists row, test_i !! (k / 2)%nat = Some row /\
           cell gr i j = Some (true_divide row.1 (axis_max0 test_i))) /\
      (Nat.odd k = true ->
         exists row, test_i !! ((k - 1) / 2)%nat = Some row /\
           cell gr i j = Some (true_divide row.2 (axis_max1 test_i))).
Proof.
  intros Hres Hsq Hrows.
  assert (Hn : 0 <= n_points) by nia.
  set (test_i := slice_to n_points loaded).
  assert (Hlen : Z.of_nat (length test_i) = n_points).
  { unfold test_i. rewrite length_slice_to_nonneg by exact Hn. lia. }
  set (testX := map (fun row => (true_divide row.1 (axis_max0 test_i),
                                 true_divide row.2 (axis_max1 test_i))) test_i).
  assert (Hflat : length (ravel testX) = (Z.to_nat res * Z.to_nat res)%nat).
  { rewrite length_ravel. unfold testX. rewrite length_map. nia. }
  exists (chunks (Z.to_nat res) (Z.to_nat res) (ravel testX)).
  split.
  { unfold ingest. fold test_i. rewrite discretize_unfold. fold testX.
    unfold reshape.
    destruct (Z.leb_spec 0 res) as [_|]; [|lia].
    destruct (Z.eqb_spec (Z.of_nat (length (ravel testX))) (res * res)) as [_|Hne];
      [reflexivity | nia]. }
  split; [exact Hlen|].
  split; [split; [apply length_chunks | apply chunks_row_length; exact Hflat]|].
  intros i j Hi Hj. cbv zeta.
  assert (Hcell : cell (chunks (Z.to_nat res) (Z.to_nat res) (ravel testX)) i j
                  = ravel testX !! (Z.to_nat res * i + j)%nat).
  { unfold cell. rewrite lookup_chunks_cell by assumption. f_equal. lia. }
  assert (Hk : (Z.to_nat res * i + j < 2 * length test_i)%nat) by nia.
  split.
  - intros Heven. apply Nat.even_spec in Heven as [m Hm].
    rewrite Hm in *. replace (2 * m / 2)%nat with m by (apply Nat.div_unique_exact; lia).
    destruct (lookup_lt_is_Some_2 test_i m ltac:(lia)) as [row Hrow].
    exists row. split; [exact Hrow|].
    rewrite Hcell, lookup_ravel_even. unfold testX.
    rewrite list_lookup_fmap, Hrow. reflexivity.
  - intros Hodd. apply Nat.odd_spec in Hodd as [m Hm].
    rewrite Hm in *.
    replace ((2 * m + 1 - 1) / 2)%nat with m
      by (apply Nat.div_unique_exact; lia).
    destruct (lookup_lt_is_Some_2 test_i m ltac:(lia)) as [row Hrow].
    exists row. split; [exact Hrow|].
    rewrite Hcell, lookup_ravel_odd. unfold testX.
    rewrite list_lookup_fmap, Hrow. reflexivity.
Qed.

(** * Concrete runs *)

(** ** The partition on small datasets *)

(** The same at the notebook's size: 384 entries, frac = 2/3. *)
Example split_384_two_thirds :
  subsets_of (split 0%nat (2 # 3) (seq 0 384, seq 1000 384)) =
    Ok ((seq 0 256, seq 1000 256), (seq 256 128, seq 1256 128)).
Proof. vm_compute. reflexivity. Qed.

Lemma validation_is_entire_dataset_when_count_is_zero_witness :
  length [10; 11] = length [1; 0] /\
  py_int ((1 - (2 # 3)) * inject_Z (Z.of_nat (length [10; 11]))) = 0 /\
  exists Xs' ys' g' data_train,
    sk_shuffle 1%nat [10; 11] [1; 0] = Ok (Xs', ys', g') /\
    split 1%nat (2 # 3) ([10; 11], [1; 0]) = Ok (data_train, (Xs', ys'), g') /\
    length Xs' = length [10; 11] /\ length ys' = length [1; 0] /\
    ([10; 11] <> [] -> Xs' <> []).
Proof.
  split; [reflexivity|]. split; [reflexivity|].
  apply (validation_is_entire_dataset_when_count_is_zero 1%nat (2 # 3) [10; 11] [1; 0]);
    reflexivity.
Defined.

(** C4, the code at the failing input: two entries and the default
    frac = 2/3.  [int((1-frac)*Np)] is 0, the validation slice starts at
    0, and the first shuffled entry is in both subsets, whatever the
    generator draws. *)
Theorem split_overlaps_on_two_entries
    {G X Y : Type} `{RandomState G} (g : G) (x0 x1 : X) (l0 l1 : Y) :
  exists Xs' ys' g' x l,
    sk_shuffle g [x0; x1] [l0; l1] = Ok (Xs', ys', g') /\
    split g (2 # 3) ([x0; x1], [l0; l1]) = Ok (([x], [l]), (Xs', ys'), g') /\
    Xs' !! 0%nat = Some x /\ ys' !! 0%nat = Some l.
Proof.
  destruct (sk_shuffle_Ok g [x0; x1] [l0; l1] eq_refl) as (Xs' & ys' & Hs & Hthrough).
  destruct Hthrough as (_ & HlX & Hly & _).
  destruct Xs' as [|x [|x' [|? ?]]]; try discriminate HlX.
  destruct ys' as [|l [|l' [|? ?]]]; try discriminate Hly.
  exists [x; x'], [l; l'], (rs_shuffle_arange g (length [x0; x1])).2, x, l.
  split; [exact Hs|].
  rewrite (split_after_shuffle g (2 # 3) _ _ _ _ _ Hs).
  split; reflexivity || (split; reflexivity).
Qed.

Example split_two_entries_run :
  split 0%nat (2 # 3) ([10; 11], [1; 0]) = Ok (([10], [1]), ([10; 11], [1; 0]), 1%nat).
Proof. reflexivity. Qed.

(** ** Ingestion on small tables *)

(** C5, the claim as stated fails: two rows are four numbers, so a
    trajectory of length 2 fits resolution 2 although 2 is not 2 * 2; and
    with n_points = 3, whose resolution is 2, a file of two rows is
    ingested although its truncated row count is below n_points. *)
Lemma discretize_two_rows_at_resolution_two :
  Z.of_nat (length [(1, 1); (-3 # 1, -2 # 1)]%Q) <> 2 * 2 /\
  discretize [(1, 1); (-3 # 1, -2 # 1)]%Q 2 =
    Ok [[Finite (1 # 3); Finite (1 # 2)]; [Finite (-3 # 3); Finite (-2 # 2)]] /\
  ~ raises (discretize [(1, 1); (-3 # 1, -2 # 1)]%Q 2) ShapeError /\
  resolution 3 = Ok 2 /\
  Z.of_nat (length (slice_to 3 [(1, 1); (-3 # 1, -2 # 1)]%Q)) < 3 /\
  ~ raises (ingest 3 2 (Table [(1, 1); (-3 # 1, -2 # 1)]%Q)) ShapeError.
Proof.
  split; [vm_compute; discriminate|]. split; [reflexivity|].
  split; [unfold raises; vm_compute; discriminate|]. split; [reflexivity|].
  split; [vm_compute; reflexivity|]. unfold raises. vm_compute. discriminate.
Qed.

Lemma discretize_shape_error_iff_size_mismatch_witness :
  0 <= 2 /\
  (raises (discretize [(1, 1); (-3 # 1, -2 # 1)]%Q 2) ShapeError <->
     2 * Z.of_nat (length [(1, 1); (-3 # 1, -2 # 1)]%Q) <> 2 * 2) /\
  (2 * Z.of_nat (length [(1, 1); (-3 # 1, -2 # 1)]%Q) = 2 * 2 ->
     exists g, discretize [(1, 1); (-3 # 1, -2 # 1)]%Q 2 = Ok g) /\
  (forall (n_points : Z) (loaded : list (Q * Q)),
     0 <= n_points -> 2 * 2 = 2 * n_points ->
     Z.of_nat (length (slice_to n_points loaded)) < n_points ->
     raises (ingest n_points 2 (Table loaded)) ShapeError).
Proof.
  split; [lia|].
  apply (discretize_shape_error_iff_size_mismatch [(1, 1); (-3 # 1, -2 # 1)]%Q 2). lia.
Defined.


Lemma grid_is_row_major_reshape_of_interleaved_rows_witness :
  0 <= 2 /\ 2 * 2 = 2 * 2 /\
  2 <= Z.of_nat (length [(1, 1); (-3 # 1, -2 # 1); (7 # 1, 7 # 1)]%Q) /\
  exists gr,
    ingest 2 2 (Table [(1, 1); (-3 # 1, -2 # 1); (7 # 1, 7 # 1)]%Q) = Ok gr /\
    Z.of_nat (length (slice_to 2 [(1, 1); (-3 # 1, -2 # 1); (7 # 1, 7 # 1)]%Q)) = 2 /\
    has_shape2 (Z.to_nat 2) (Z.to_nat 2) gr /\
    forall i j : nat, (i < Z.to_nat 2)%nat -> (j < Z.to_nat 2)%nat ->
      let test_i := slice_to 2 [(1, 1); (-3 # 1, -2 # 1); (7 # 1, 7 # 1)]%Q in
      let k := (Z.to_nat 2 * i + j)%nat in
      (Nat.even k = true ->
         exists row, test_i !! (k / 2)%nat = Some row /\
           cell gr i j = Some (true_divide row.1 (axis_max0 test_i))) /\
      (Nat.odd k = true ->
         exists row, test_i !! ((k - 1) / 2)%nat = Some row /\
           cell gr i j = Some (true_divide row.2 (axis_max1 test_i))).
Proof.
  split; [lia|]. split; [reflexivity|]. split; [simpl; lia|].
  apply (grid_is_row_major_reshape_of_interleaved_rows 2 2
           [(1, 1); (-3 # 1, -2 # 1); (7 # 1, 7 # 1)]%Q).
  - lia.
  - reflexivity.
  - simpl; lia.
Defined.

Example ingest_one_row_file_run :
  ingest 450 30 (Vector [4 # 1; 5 # 1]%Q) = Raise IndexOutOfRange /\
  ingest 0 0 (Vector [4 # 1; 5 # 1]%Q) = Ok [].
Proof. split; reflexivity. Qed.

Example ingest_three_rows_run :
  ingest 2 2 (Table [(1, 1); (-3 # 1, -2 # 1); (7 # 1, 7 # 1)]%Q) =
    Ok [[Finite (1 # 3); Finite (1 # 2)]; [Finite (-3 # 3); Finite (-2 # 2)]].
Proof. reflexivity. Qed.

(** ** A small pipeline: assemble, split, ingest *)

Lemma grids_and_labels_stay_paired_witness :
  assemble toy_simulate (fun t => discretize t 2) snd toy_entries = Ok (toy_Grids, toy_Labels) /\
  length toy_Grids = length toy_Labels /\
  ingest_all toy_loadtxt 2 2 toy_data = Ok (toy_orbits, [1; 0]) /\
  (length toy_Grids = length toy_Labels /\
   assembled_from toy_simulate (fun t => discretize t 2) snd toy_entries toy_Grids toy_Labels) /\
  (exists Xs' ys' g' data_train data_val,
     sk_shuffle 1%nat toy_Grids toy_Labels = Ok (Xs', ys', g') /\
     shuffled_through (rs_shuffle_arange 1%nat (length toy_Grids)).1
       toy_Grids toy_Labels Xs' ys' /\
     split 1%nat (2 # 3) (toy_Grids, toy_Labels) = Ok (data_train, data_val, g') /\
     keeps_pairs (toy_Grids, toy_Labels) data_train /\
     keeps_pairs (toy_Grids, toy_Labels) data_val) /\
  (length toy_orbits = length [1; 0] /\
   ingested_from toy_loadtxt 2 2 toy_data toy_orbits [1; 0]).
Proof.
  split; [reflexivity|]. split; [reflexivity|]. split; [reflexivity|].
  apply (grids_and_labels_stay_paired (G := nat)
           toy_simulate (fun t => discretize t 2) snd toy_entries toy_Grids toy_Labels
           1%nat (2 # 3) toy_Grids toy_Labels toy_loadtxt 2 2 toy_data toy_orbits [1; 0]);
    reflexivity.
Defined.

Example toy_pipeline_run :
  subsets_of (split 1%nat (2 # 3) (toy_Labels, toy_Labels)) = Ok (([0; 1], [0; 1]), ([1], [1])) /\
  ingest_all toy_loadtxt 2 2 toy_data =
    Ok ([[[Finite (1 # 3); Finite (1 # 2)]; [Finite (-3 # 3); Finite (-2 # 2)]];
         [[Finite (4 # 4); Finite (0 # 5)]; [Finite (0 # 4); Finite (5 # 5)]]],
        [1; 0]).
Proof. split; reflexivity. Qed.

(** A label outside {0, 1} aborts the assembly; arrays of different
    lengths abort the shuffle. *)
Example assemble_rejects_label :
  assemble toy_simulate (fun t => discretize t 2) snd [((1 # 2)%Q, 1); ((3 # 1)%Q, 2)]
    = Raise ConfigurationError.
Proof. reflexivity. Qed.

Example split_rejects_inconsistent_lengths :
  split 0%nat (2 # 3) ([10; 11; 12], [1; 0]) = Raise InconsistentLength.
Proof. reflexivity. Qed.

(** ** The constants of the runs above in binary64 *)

Example binary64_bounds_384 :
  Binary64.train_bound 2 3 384 = Some 256 /\ Binary64.val_bound 2 3 384 = Some 128 /\
  py_int ((2 # 3) * inject_Z 384) = 256 /\ py_int ((1 - (2 # 3)) * inject_Z 384) = 128.
Proof. vm_compute. repeat split; reflexivity. Qed.

Example binary64_bounds_small :
  Binary64.train_bound 1 2 3 = Some (py_int ((1 # 2) * inject_Z 3)) /\
  Binary64.val_bound 1 2 3 = Some (py_int ((1 - (1 # 2)) * inject_Z 3)) /\
  Binary64.train_bound 2 3 2 = Some (py_int ((2 # 3) * inject_Z 2)) /\
  Binary64.val_bound 2 3 2 = Some 0 /\
  py_int ((1 - (2 # 3)) * inject_Z 2) = 0 /\
  Binary64.train_bound 2 3 3 = Some (py_int ((2 # 3) * inject_Z 3)) /\
  Binary64.val_bound 2 3 3 = Some (py_int ((1 - (2 # 3)) * inject_Z 3)).
Proof. vm_compute. repeat split; reflexivity. Qed.

Example binary64_resolution :
  Binary64.res 450 = Some 30 /\ resolution 450 = Ok 30 /\
  Binary64.res 1 = Some 1 /\ Binary64.res 3 = Some 2 /\ resolution 3 = Ok 2.
Proof. vm_compute. repeat split; reflexivity. Qed.

Example binary64_zero_by_zero :
  Binary64.truediv (Binary64.of_int 0) (Binary64.of_int 0) = S754_nan /\
  true_divide 0 0 = NaN.
Proof. vm_compute. split; reflexivity. Qed.

(** * Further properties of the cells *)

(** ** The shuffle keeps the multiset of pairs *)

Section ShufflePermutation.
Context {A B : Type}.

Lemma omap_lookup_cons (x : A) (l : list A) (s : list nat) :
  omap (fun i => (x :: l) !! i) (S <$> s) = omap (fun i => l !! i) s.
Proof.
  induction s as [|i s IHs]; [reflexivity|].
  simpl. destruct (l !! i); [f_equal|]; exact IHs.
Qed.

Lemma omap_lookup_seq (l : list A) : omap (fun i => l !! i) (seq 0 (length l)) = l.
Proof.
  induction l as [|x l IH]; [reflexivity|].
  simpl. f_equal. rewrite <- fmap_S_seq, omap_lookup_cons. exact IH.
Qed.

Lemma safe_indexing_omap (a : list A) (indices : list nat) (a' : list A) :
  safe_indexing a indices = Ok a' -> a' = omap (fun i => a !! i) indices.
Proof.
  revert a'. induction indices as [|i rest IH]; intros a' Hrun; simpl in Hrun.
  - inversion Hrun. reflexivity.
  - destruct (a !! i) as [x|] eqn:Hx; [|discriminate Hrun].
    destruct (safe_indexing a rest) as [r|] eqn:Hr; [|discriminate Hrun].
    simpl in Hrun. inversion Hrun. subst a'.
    simpl. rewrite Hx. simpl. f_equal. apply IH. reflexivity.
Qed.

(** Indexing by a permutation of the indices permutes the array. *)
Lemma safe_indexing_Permutation (a : list A) (indices : list nat) (a' : list A) :
  indices ≡ₚ seq 0 (length a) -> safe_indexing a indices = Ok a' -> a' ≡ₚ a.
Proof.
  intros Hp Hrun. rewrite (safe_indexing_omap _ _ _ Hrun).
  rewrite Hp. rewrite omap_lookup_seq. reflexivity.
Qed.

Lemma zip_omap_lookup (a : list A) (b : list B) (indices : list nat) :
  length a = length b ->
  zip (omap (fun i => a !! i) indices) (omap (fun i => b !! i) indices)
    = omap (fun i => zip a b !! i) indices.
Proof.
  intros Hlen. induction indices as [|i rest IH]; [reflexivity|].
  assert (Hz : zip a b !! i = (a !! i ≫= fun x => b !! i ≫= fun y => Some (x, y)))
    by apply lookup_zip_with.
  change (omap (fun i => zip a b !! i) (i :: rest))
    with (match zip a b !! i with
          | Some z => z :: omap (fun i => zip a b !! i) rest
          | None => omap (fun i => zip a b !! i) rest
          end).
  rewrite Hz, <- IH. clear Hz IH.
  change (omap (fun i => a !! i) (i :: rest))
    with (match a !! i with
          | Some z => z :: omap (fun i => a !! i) rest
          | None => omap (fun i => a !! i) rest
          end).
  change (omap (fun i => b !! i) (i :: rest))
    with (match b !! i with
          | Some z => z :: omap (fun i => b !! i) rest
          | None => omap (fun i => b !! i) rest
          end).
  destruct (a !! i) as [x|] eqn:Hx.
  - destruct (lookup_lt_is_Some_2 b i) as [y Hy].
    { rewrite <- Hlen. eapply lookup_lt_Some. exact Hx. }
    rewrite Hy. reflexivity.
  - rewrite (lookup_ge_None_2 b i); [reflexivity|].
    rewrite <- Hlen. apply lookup_ge_None_1. exact Hx.
Qed.
End ShufflePermutation.

(** ** What the cell keeps and what it skips *)

Section PartitionCoverage.
Context {G : Type} `{RandomState G}.
Context {X Y : Type}.
Implicit Types (g : G) (Xs : list X) (ys : list Y).

Lemma sk_shuffle_inv g Xs ys Xs' ys' g' :
  sk_shuffle g Xs ys = Ok (Xs', ys', g') ->
  length Xs = length ys /\
  safe_indexing Xs (rs_shuffle_arange g (length Xs)).1 = Ok Xs' /\
  safe_indexing ys (rs_shuffle_arange g (length Xs)).1 = Ok ys'.
Proof.
  unfold sk_shuffle. intros Hrun.
  destruct (decide (length Xs = length ys)) as [Hlen|]; [|discriminate Hrun].
  destruct (rs_shuffle_arange g (length Xs)) as [p g2]. simpl.
  destruct (safe_indexing Xs p) as [a|]; [|discriminate Hrun]. simpl in Hrun.
  destruct (safe_indexing ys p) as [b|]; [|discriminate Hrun]. simpl in Hrun.
  inversion Hrun. subst. auto.
Qed.

Lemma sk_shuffle_permutes_pairs g Xs ys Xs' ys' g' :
  sk_shuffle g Xs ys = Ok (Xs', ys', g') ->
  length Xs' = length ys' /\ zip Xs' ys' ≡ₚ zip Xs ys.
Proof.
  intros Hrun. destruct (sk_shuffle_inv _ _ _ _ _ _ Hrun) as (Hlen & HX & Hy).
  pose proof (rs_shuffle_arange_perm g (length Xs)) as Hp.
  rewrite (safe_indexing_omap _ _ _ HX), (safe_indexing_omap _ _ _ Hy).
  split.
  - pose proof (safe_indexing_Permutation Xs _ _ Hp HX) as HpX.
    assert (Hp' : (rs_shuffle_arange g (length Xs)).1 ≡ₚ seq 0 (length ys))
      by (rewrite <- Hlen; exact Hp).
    pose proof (safe_indexing_Permutation ys _ _ Hp' Hy) as Hpy.
    rewrite <- (safe_indexing_omap _ _ _ HX), <- (safe_indexing_omap _ _ _ Hy).
    rewrite (Permutation_length HpX), (Permutation_length Hpy). exact Hlen.
  - rewrite zip_omap_lookup by exact Hlen.
    assert (Hp' : (rs_shuffle_arange g (length Xs)).1 ≡ₚ seq 0 (length (zip Xs ys))).
    { rewrite length_zip_with, <- Hlen, Nat.min_id. exact Hp. }
    rewrite Hp'. rewrite omap_lookup_seq. reflexivity.
Qed.

(** X2.  Whatever the fraction, neither subset holds a (grid, label) pair
    more often than the dataset does: each subset's pairs are a
    sub-multiset of the dataset's pairs. *)
Theorem split_subsets_are_submultisets g (frac : Q) Xs ys data_train data_val g' :
  split g frac (Xs, ys) = Ok (data_train, data_val, g') ->
  zip data_train.1 data_train.2 ⊆+ zip Xs ys /\
  zip data_val.1 data_val.2 ⊆+ zip Xs ys.
Proof.
  intros Hrun.
  destruct (decide (length Xs = length ys)) as [Hlen|Hne];
    [|rewrite split_inconsistent in Hrun by exact Hne; discriminate Hrun].
  destruct (sk_shuffle_Ok g Xs ys Hlen) as (Xs' & ys' & Hs & _).
  destruct (sk_shuffle_permutes_pairs _ _ _ _ _ _ Hs) as [Hlen' Hperm].
  rewrite (split_after_shuffle g frac Xs ys Xs' ys' _ Hs) in Hrun.
  inversion Hrun. subst data_train data_val. clear Hrun. cbn [fst snd].
  unfold data_train_of, data_val_of, slice_to, slice_from.
  rewrite <- Hlen'. rewrite <- zip_with_take, <- zip_with_drop.
  rewrite <- Hperm.
  split; apply sublist_submseteq; [apply sublist_take | apply sublist_drop].
Qed.

End PartitionCoverage.

(** ** Ingestion with the resolution the notebook computes *)

(** X4.  With the resolution of the first cell, a table of at least
    n_points rows is ingested exactly when 2 * n_points is a perfect
    square; otherwise the reshape raises the shape error. *)
Theorem ingest_with_computed_resolution (n_points : Z) (rows : list (Q * Q)) :
  0 <= n_points -> n_points <= Z.of_nat (length rows) ->
  exists res,
    resolution n_points = Ok res /\
    ((exists gr, ingest n_points res (Table rows) = Ok gr) <->
       exists r, r * r = 2 * n_points) /\
    ((~ exists r, r * r = 2 * n_points) ->
       raises (ingest n_points res (Table rows)) ShapeError).
Proof.
  intros Hn Hrows. exists (Z.sqrt (2 * n_points)).
  split; [apply resolution_nonneg; exact Hn|].
  pose proof (Z.sqrt_nonneg (2 * n_points)) as Hs.
  assert (Hlen : Z.of_nat (length (slice_to n_points rows)) = n_points).
  { rewrite length_slice_to_nonneg by exact Hn. lia. }
  assert (Hiff : (exists gr, ingest n_points (Z.sqrt (2 * n_points)) (Table rows) = Ok gr) <->
                 exists r, r * r = 2 * n_points).
  { unfold ingest. rewrite discretize_Ok_iff, Hlen. split.
    - intros [_ Hsq]. exists (Z.sqrt (2 * n_points)). lia.
    - intros [r Hr]. split; [exact Hs|].
      rewrite <- Hr. rewrite <- (Z.abs_square r), Z.sqrt_square by apply Z.abs_nonneg.
      reflexivity. }
  split; [exact Hiff|].
  intros Hno.
  destruct (discretize_raises_only_ShapeError (slice_to n_points rows) (Z.sqrt (2 * n_points)))
    as [Hok|Hr]; [|exact Hr].
  exfalso. apply Hno. apply Hiff. exact Hok.
Qed.

(** X5.  Rows after the first n_points have no effect: they are cut off
    before the maxima are taken, so a longer file gives the same grid (or
    the same exception) as its first n_points rows. *)
Theorem ingest_ignores_rows_after_n_points
    (n_points res : Z) (rows extra : list (Q * Q)) :
  Z.of_nat (length rows) = n_points ->
  ingest n_points res (Table (rows ++ extra)) = ingest n_points res (Table rows).
Proof.
  intros Hlen. unfold ingest.
  rewrite !slice_to_nonneg by lia.
  rewrite take_app_length' by lia.
  rewrite take_ge by lia. reflexivity.
Qed.

(** ** The values the normalisation produces *)




(** ** The grid and the flat sequence *)

Lemma concat_chunks {A : Type} (rows cols : nat) (flat : list A) :
  concat (chunks rows cols flat) = take (rows * cols) flat.
Proof.
  revert flat. induction rows as [|r IH]; intros flat; simpl.
  - reflexivity.
  - rewrite IH. rewrite take_take_drop. reflexivity.
Qed.

(** X9.  The reshape neither drops nor reorders anything: read row by row,
    a grid returned by discretize is the interleaved sequence x0, y0, x1,
    y1, ... of the normalised coordinates, so it has twice as many cells
    as the trajectory has points. *)
Theorem discretize_grid_reads_back_interleaved
    (test_i : list (Q * Q)) (res : Z) (gr : grid) :
  discretize test_i res = Ok gr ->
  exists testX,
    normalise test_i = Ok testX /\
    concat gr = ravel testX /\
    length (concat gr) = (2 * length test_i)%nat /\
    has_shape2 (Z.to_nat res) (Z.to_nat res) gr.
Proof.
  intros Hrun.
  assert (Hok : 0 <= res /\ 2 * Z.of_nat (length test_i) = res * res).
  { apply discretize_Ok_iff. eauto. }
  destruct Hok as [Hres Hsq].
  rewrite discretize_unfold in Hrun.
  eexists. split; [apply normalise_Ok|].
  set (testX := map (fun row => (true_divide row.1 (axis_max0 test_i),
                                 true_divide row.2 (axis_max1 test_i))) test_i) in *.
  assert (Hflat : length (ravel testX) = (Z.to_nat res * Z.to_nat res)%nat).
  { rewrite length_ravel. unfold testX. rewrite length_map. nia. }
  unfold reshape in Hrun.
  destruct ((0 <=? res) && (Z.of_nat (length (ravel testX)) =? res * res));
    [|discriminate Hrun].
  inversion Hrun. subst gr. clear Hrun.
  assert (Hcat : concat (chunks (Z.to_nat res) (Z.to_nat res) (ravel testX)) = ravel testX).
  { rewrite concat_chunks. apply take_ge. rewrite Hflat. reflexivity. }
  split; [exact Hcat|]. split.
  - rewrite Hcat, length_ravel. unfold testX. rewrite length_map. reflexivity.
  - split; [apply length_chunks | apply chunks_row_length; exact Hflat].
Qed.

(** ** Concrete runs of the further properties *)

Lemma split_subsets_are_submultisets_witness :
  split 1%nat (2 # 3) ([10; 11; 12], [1; 0; 1]) = Ok (([11; 12], [0; 1]), ([10], [1]), 2%nat) /\
  zip [11; 12] [0; 1] ⊆+ zip [10; 11; 12] [1; 0; 1] /\
  zip [10] [1] ⊆+ zip [10; 11; 12] [1; 0; 1].
Proof.
  split; [reflexivity|].
  apply (split_subsets_are_submultisets 1%nat (2 # 3) [10; 11; 12] [1; 0; 1]
           ([11; 12], [0; 1]) ([10], [1]) 2%nat).
  reflexivity.
Defined.

Lemma ingest_with_computed_resolution_witness :
  0 <= 2 /\ 2 <= Z.of_nat (length [(1, 1); (-3 # 1, -2 # 1); (7 # 1, 7 # 1)]%Q) /\
  exists res,
    resolution 2 = Ok res /\
    ((exists gr, ingest 2 res (Table [(1, 1); (-3 # 1, -2 # 1); (7 # 1, 7 # 1)]%Q) = Ok gr) <->
       exists r, r * r = 2 * 2) /\
    ((~ exists r, r * r = 2 * 2) ->
       raises (ingest 2 res (Table [(1, 1); (-3 # 1, -2 # 1); (7 # 1, 7 # 1)]%Q)) ShapeError).
Proof.
  split; [lia|]. split; [simpl; lia|].
  apply (ingest_with_computed_resolution 2 [(1, 1); (-3 # 1, -2 # 1); (7 # 1, 7 # 1)]%Q).
  - lia.
  - simpl; lia.
Defined.

Example ingest_with_400_points_fails :
  resolution 400 = Ok 28 /\
  ingest 400 28 (Table (map (fun k => (inject_Z (Z.of_nat k), 1%Q)) (seq 0 400)))
    = Raise ShapeError.
Proof. split; vm_compute; reflexivity. Qed.

Lemma ingest_ignores_rows_after_n_points_witness :
  Z.of_nat (length [(1, 1); (-3 # 1, -2 # 1)]%Q) = 2 /\
  ingest 2 2 (Table ([(1, 1); (-3 # 1, -2 # 1)] ++ [(7 # 1, 7 # 1)])%Q)
    = ingest 2 2 (Table [(1, 1); (-3 # 1, -2 # 1)]%Q).
Proof.
  split; [reflexivity|].
  apply (ingest_ignores_rows_after_n_points 2 2
           [(1, 1); (-3 # 1, -2 # 1)]%Q [(7 # 1, 7 # 1)]%Q).
  reflexivity.
Defined.


Lemma discretize_grid_reads_back_interleaved_witness :
  discretize [(1, 1); (-3 # 1, -2 # 1)]%Q 2
    = Ok [[Finite (1 # 3); Finite (1 # 2)]; [Finite (-3 # 3); Finite (-2 # 2)]] /\
  exists testX,
    normalise [(1, 1); (-3 # 1, -2 # 1)]%Q = Ok testX /\
    concat [[Finite (1 # 3); Finite (1 # 2)]; [Finite (-3 # 3); Finite (-2 # 2)]]
      = ravel testX /\
    length (concat [[Finite (1 # 3); Finite (1 # 2)]; [Finite (-3 # 3); Finite (-2 # 2)]])
      = (2 * length [(1, 1); (-3 # 1, -2 # 1)]%Q)%nat /\
    has_shape2 (Z.to_nat 2) (Z.to_nat 2)
      [[Finite (1 # 3); Finite (1 # 2)]; [Finite (-3 # 3); Finite (-2 # 2)]].
Proof.
  split; [reflexivity|].
  apply (discretize_grid_reads_back_interleaved [(1, 1); (-3 # 1, -2 # 1)]%Q 2).
  reflexivity.
Defined.

(** A list of three files whose second file has a single row: the loop
    raises the index error of that file, although the first and the third
    file are fine. *)
Example ingest_all_stops_at_one_row_file :
  ingest_all toy_loadtxt 2 2 [("001", 1); ("003", 0); ("002", 0)] = Raise IndexOutOfRange /\
  ingest_all toy_loadtxt 2 2 [("001", 1); ("004", 0); ("002", 0)] = Raise FormatError.
Proof. split; reflexivity. Qed.

(** * The cells in binary64 *)

(** ** Binary64: digits, exact conversions and rounding *)

Lemma digits2_pos_bounds (p : positive) :
  2 ^ (Z.pos (digits2_pos p) - 1) <= Z.pos p < 2 ^ Z.pos (digits2_pos p).
Proof.
  induction p as [p IH|p IH|]; cbn [digits2_pos].
  - rewrite Pos2Z.inj_succ. replace (Z.succ (Z.pos (digits2_pos p)) - 1) with (Z.succ (Z.pos (digits2_pos p) - 1)) by lia.
    rewrite !Z.pow_succ_r by lia. lia.
  - rewrite Pos2Z.inj_succ. replace (Z.succ (Z.pos (digits2_pos p)) - 1) with (Z.succ (Z.pos (digits2_pos p) - 1)) by lia.
    rewrite !Z.pow_succ_r by lia. lia.
  - simpl. lia.
Qed.

Lemma digits2_pos_unique (p : positive) (n : Z) :
  2 ^ (n - 1) <= Z.pos p < 2 ^ n -> Z.pos (digits2_pos p) = n.
Proof.
  intros [Hlo Hhi]. pose proof (digits2_pos_bounds p) as [Blo Bhi].
  assert (Hn : 0 < n).
  { destruct (Z.ltb_spec 0 n); [assumption|].
    assert (2 ^ n <= 1) by (destruct (Z.eq_dec n 0) as [->|]; [simpl; lia | rewrite Z.pow_neg_r by lia; lia]).
    lia. }
  destruct (Z.lt_trichotomy (Z.pos (digits2_pos p)) n) as [Hlt|[Heq|Hgt]]; [|exact Heq|].
  - assert (2 ^ Z.pos (digits2_pos p) <= 2 ^ (n - 1)) by (apply Z.pow_le_mono_r; lia). lia.
  - assert (2 ^ n <= 2 ^ (Z.pos (digits2_pos p) - 1)) by (apply Z.pow_le_mono_r; lia). lia.
Qed.

Lemma iter_xO (p n : positive) : Z.pos (Pos.iter xO p n) = Z.pos p * 2 ^ Z.pos n.
Proof.
  induction n as [|n IH] using Pos.peano_ind.
  - simpl. lia.
  - rewrite Pos.iter_succ. rewrite Pos2Z.inj_xO, IH, Pos2Z.inj_succ, Z.pow_succ_r by lia. lia.
Qed.

(** A mantissa of 53 digits with an exponent in range is left alone. *)
Lemma shr_fexp_53 (m : positive) (e : Z) (l : location) :
  Z.pos (digits2_pos m) = 53 -> -1074 <= e ->
  shr_fexp Binary64.prec Binary64.emax (Z.pos m) e l = (shr_record_of_loc (Z.pos m) l, e).
Proof.
  intros Hd He. unfold shr_fexp, fexp, emin, Binary64.prec, Binary64.emax.
  cbn [Zdigits2]. rewrite Hd.
  replace (Z.max (53 + e - 53) (3 - 1024 - 53) - e) with 0 by lia.
  reflexivity.
Qed.

Lemma loc_of_shr_record_of_loc (m : Z) (l : location) :
  loc_of_shr_record (shr_record_of_loc m l) = l.
Proof. destruct l as [|[| |]]; reflexivity. Qed.

Lemma shr_m_record_of_loc (m : Z) (l : location) : shr_m (shr_record_of_loc m l) = m.
Proof. destruct l as [|[| |]]; reflexivity. Qed.

Lemma binary_round_aux_53 (m : positive) (e : Z) :
  Z.pos (digits2_pos m) = 53 -> -1074 <= e <= 971 ->
  binary_round_aux Binary64.prec Binary64.emax false (Z.pos m) e loc_Exact = S754_finite false m e.
Proof.
  intros Hd He. unfold binary_round_aux.
  rewrite shr_fexp_53 by (assumption || lia). cbn [shr_record_of_loc shr_m loc_of_shr_record round_nearest_even].
  rewrite shr_fexp_53 by (assumption || lia). cbn [shr_record_of_loc shr_m].
  unfold Binary64.prec, Binary64.emax.
  destruct (Z.leb_spec e (1024 - 53)); [reflexivity | lia].
Qed.

(** The conversion of an integer below 2^53 is exact. *)
Lemma of_int_exact (p : positive) :
  Z.pos p < 2 ^ 53 ->
  exists m e, Binary64.of_int (Z.pos p) = S754_finite false m e /\
    Z.pos (digits2_pos m) = 53 /\ e = Z.pos (digits2_pos p) - 53 /\
    Z.pos m = Z.pos p * 2 ^ (- e).
Proof.
  intros Hp. pose proof (digits2_pos_bounds p) as [Blo Bhi].
  set (d := Z.pos (digits2_pos p)) in *.
  assert (Hd : 1 <= d <= 53).
  { split; [unfold d; lia|].
    destruct (Z.leb_spec d 53); [assumption|].
    assert (2 ^ 53 <= 2 ^ (d - 1)) by (apply Z.pow_le_mono_r; lia). lia. }
  unfold Binary64.of_int, binary_normalize, binary_round.
  unfold fexp, emin, Binary64.prec, Binary64.emax. fold d.
  replace (Z.max (d + 0 - 53) (3 - 1024 - 53)) with (d - 53) by lia.
  unfold shl_align.
  destruct (Z.eq_dec d 53) as [E|NE].
  - rewrite E. change (53 - 53 - 0) with 0. cbv beta iota.
    exists p, 0.
    change (binary_round_aux 53 1024 false (Z.pos p) 0 loc_Exact) with
      (binary_round_aux Binary64.prec Binary64.emax false (Z.pos p) 0 loc_Exact).
    rewrite binary_round_aux_53 by (fold d; lia).
    repeat split; try (fold d; lia). 
  - destruct (d - 53 - 0) as [|q|q] eqn:Es; try lia.
    exists (Pos.iter xO p q), (d - 53).
    assert (Hm : Z.pos (Pos.iter xO p q) = Z.pos p * 2 ^ Z.pos q) by apply iter_xO.
    assert (Hdig : Z.pos (digits2_pos (Pos.iter xO p q)) = 53).
    { apply digits2_pos_unique. rewrite Hm.
      replace (Z.pos q) with (53 - d) by lia.
      assert (H52 : 2 ^ (53 - 1) = 2 ^ (d - 1) * 2 ^ (53 - d)).
      { rewrite <- Z.pow_add_r by lia. f_equal. lia. }
      assert (H53 : 2 ^ 53 = 2 ^ d * 2 ^ (53 - d)).
      { rewrite <- Z.pow_add_r by lia. f_equal. lia. }
      assert (Hpos : 0 < 2 ^ (53 - d)) by (apply Z.pow_pos_nonneg; lia).
      rewrite H52, H53. split.
      - apply Z.mul_le_mono_nonneg_r; lia.
      - apply Z.mul_lt_mono_pos_r; lia. }
    change (binary_round_aux 53 1024 false (Z.pos (Pos.iter xO p q)) (d - 53) loc_Exact) with
      (binary_round_aux Binary64.prec Binary64.emax false (Z.pos (Pos.iter xO p q)) (d - 53) loc_Exact).
    rewrite binary_round_aux_53 by (assumption || lia).
    split; [reflexivity|]. split; [exact Hdig|]. split; [reflexivity|].
    rewrite Hm. f_equal. f_equal. lia.
Qed.

(** Rounding a 53-digit mantissa with a location. *)
Lemma binary_round_aux_53_loc (q : positive) (e : Z) (l : location) :
  Z.pos (digits2_pos q) = 53 -> -1074 <= e <= 970 ->
  let q' := round_nearest_even (Z.pos q) l in
  binary_round_aux Binary64.prec Binary64.emax false (Z.pos q) e l =
    if q' =? 2 ^ 53 then S754_finite false (Z.to_pos (2 ^ 52)) (e + 1)
    else S754_finite false (Z.to_pos q') e.
Proof.
  intros Hd He q'. unfold binary_round_aux.
  rewrite shr_fexp_53 by (assumption || lia).
  rewrite shr_m_record_of_loc, loc_of_shr_record_of_loc. fold q'.
  pose proof (digits2_pos_bounds q) as [Blo Bhi]. rewrite Hd in Blo, Bhi.
  assert (Hq' : q' = Z.pos q \/ q' = Z.pos q + 1).
  { unfold q', round_nearest_even. destruct l as [|[| |]]; auto.
    destruct (Z.even (Z.pos q)); auto. }
  destruct (Z.eqb_spec q' (2 ^ 53)) as [E|NE].
  - rewrite E.
    assert (Hs : shr_fexp Binary64.prec Binary64.emax (2 ^ 53) e loc_Exact
                 = ({| shr_m := 2 ^ 52; shr_r := false; shr_s := false |}, e + 1)).
    { unfold shr_fexp.
      replace (Zdigits2 (2 ^ 53)) with 54 by (vm_compute; reflexivity).
      unfold fexp, emin, Binary64.prec, Binary64.emax.
      replace (Z.max (54 + e - 53) (3 - 1024 - 53) - e) with 1 by lia.
      vm_compute. reflexivity. }
    rewrite Hs. cbn [shr_m].
    replace (2 ^ 52) with (Z.pos (Z.to_pos (2 ^ 52))) at 1 by (vm_compute; reflexivity).
    cbv beta iota.
    unfold Binary64.prec, Binary64.emax.
    destruct (Z.leb_spec (e + 1) (1024 - 53)); [reflexivity | lia].
  - assert (Hpos : 0 < q') by lia.
    destruct q' as [|q2|] eqn:Eq'; try lia.
    assert (Hd2 : Z.pos (digits2_pos q2) = 53).
    { apply digits2_pos_unique. change (2 ^ (53 - 1)) with (2 ^ 52) in *.
      split; [lia|]. destruct Hq' as [H|H]; [lia|]. lia. }
    rewrite shr_fexp_53 by (assumption || lia). cbn [shr_record_of_loc shr_m].
    unfold Binary64.prec, Binary64.emax.
    destruct (Z.leb_spec e (1024 - 53)); [|lia].
    simpl Z.to_pos. reflexivity.
Qed.

(** Rounding the scaled root to nearest does not reach the next integer. *)
Lemma scaled_root_floor (n W q r q' : Z) :
  0 < n -> 0 < W -> Z.sqrt n + 1 <= W ->
  n * (W * W) = q * q + r -> 0 <= r <= 2 * q -> 0 <= q ->
  (q' = q \/ (q' = q + 1 /\ q < r)) ->
  q' / W = Z.sqrt n.
Proof.
  intros Hn HW Hk Hsq Hr Hq Hq'.
  pose proof (Z.sqrt_spec n ltac:(lia)) as [Klo Khi]. unfold Z.succ in Khi.
  pose proof (Z.sqrt_nonneg n) as K0.
  set (k := Z.sqrt n) in *.
  assert (Hlow : k * W <= q).
  { destruct (Z.le_gt_cases (k * W) q) as [H|H]; [exact H|]. exfalso.
    assert ((q + 1) * (q + 1) <= (k * W) * (k * W)) by nia.
    assert (k * W * (k * W) <= n * (W * W)) by nia. nia. }
  assert (Hup : q + 1 <= (k + 1) * W).
  { destruct (Z.le_gt_cases (q + 1) ((k + 1) * W)) as [H|H]; [exact H|]. exfalso.
    assert (((k + 1) * W) * ((k + 1) * W) <= q * q) by nia.
    assert (n * (W * W) < (k + 1) * W * ((k + 1) * W)) by nia. nia. }
  assert (Hq'b : k * W <= q' < (k + 1) * W).
  { destruct Hq' as [->|[-> Hgt]]; [lia|]. split; [lia|].
    destruct (Z.eq_dec (q + 1) ((k + 1) * W)) as [E|NE]; [|lia]. exfalso.
    assert (Hn1 : n <= (k + 1) * (k + 1) - 1) by lia.
    assert (q = (k + 1) * W - 1) by lia. subst q.
    assert (n * (W * W) <= ((k + 1) * (k + 1) - 1) * (W * W)) by nia.
    nia. }
  symmetry. apply Z.div_unique with (r := q' - k * W); lia.
Qed.

Lemma pow2_split (a b : Z) : 0 <= a -> 0 <= b -> 2 ^ (a + b) = 2 ^ a * 2 ^ b.
Proof. intros. apply Z.pow_add_r; assumption. Qed.

(** For an integer below 2^52 the truncated binary64 square root is the
    integer square root. *)
Lemma int_sqrt_of_int (n : Z) :
  0 < n < 2 ^ 52 -> Binary64.int (Binary64.sqrt (Binary64.of_int n)) = Some (Z.sqrt n).
Proof.
  intros [Hn0 Hn]. destruct n as [|p|p]; try lia.
  destruct (of_int_exact p ltac:(change (2 ^ 53) with (2 * 2 ^ 52); lia))
    as (m & e & Hof & Hdm & He & Hm).
  rewrite Hof. clear Hof.
  pose proof (digits2_pos_bounds p) as [Blo Bhi].
  set (d := Z.pos (digits2_pos p)) in *.
  assert (Hd : 1 <= d <= 52).
  { split; [unfold d; lia|].
    destruct (Z.leb_spec d 52); [assumption|].
    assert (2 ^ 52 <= 2 ^ (d - 1)) by (apply Z.pow_le_mono_r; lia). lia. }
  set (hd := (d + 1) / 2).
  assert (Hhd : 2 * hd = d \/ 2 * hd = d + 1).
  { unfold hd. pose proof (Z.div_mod (d + 1) 2 ltac:(lia)).
    pose proof (Z.mod_pos_bound (d + 1) 2 ltac:(lia)). lia. }
  set (T := 53 - hd).
  assert (HT : 27 <= T <= 52) by (unfold T; lia).
  unfold Binary64.sqrt, SFsqrt, SFsqrt_core_binary.
  cbn [Zdigits2]. rewrite Hdm.
  assert (He' : Z.min (fexp Binary64.prec Binary64.emax (Z.div2 (53 + e + 1))) (Z.div2 e) = - T).
  { rewrite !Z.div2_div. unfold fexp, emin, Binary64.prec, Binary64.emax.
    replace (53 + e + 1) with (d + 1) by lia. fold hd.
    assert (e / 2 >= hd - 53).
    { subst e. pose proof (Z.div_mod (d - 53) 2 ltac:(lia)).
      pose proof (Z.mod_pos_bound (d - 53) 2 ltac:(lia)). lia. }
    unfold T. lia. }
  rewrite He'.
  assert (Hs : e - 2 * - T = 2 * T - (53 - d)) by lia.
  rewrite Hs.
  destruct (2 * T - (53 - d)) as [|s|s] eqn:Es; try lia.
  rewrite Z.shiftl_mul_pow2 by lia.
  assert (Hm' : Z.pos m * 2 ^ Z.pos s = Z.pos p * (2 ^ T * 2 ^ T)).
  { rewrite Hm. rewrite <- !pow2_split by lia. rewrite <- Z.mul_assoc.
    rewrite <- pow2_split by lia. f_equal. f_equal. lia. }
  rewrite Hm'.
  pose proof (Z.sqrtrem_spec (Z.pos p * (2 ^ T * 2 ^ T))) as Hspec.
  assert (HW : 0 < 2 ^ T) by (apply Z.pow_pos_nonneg; lia).
  destruct (Z.sqrtrem (Z.pos p * (2 ^ T * 2 ^ T))) as [q r].
  specialize (Hspec ltac:(nia)). destruct Hspec as [Hsq Hr].
  assert (H104 : 2 ^ 104 <= Z.pos p * (2 ^ T * 2 ^ T)).
  { rewrite <- pow2_split by lia.
    apply Z.le_trans with (2 ^ (d - 1) * 2 ^ (T + T)).
    - rewrite <- pow2_split by lia. apply Z.pow_le_mono_r; lia.
    - apply Z.mul_le_mono_nonneg_r; [apply Z.pow_nonneg; lia | exact Blo]. }
  assert (H106 : Z.pos p * (2 ^ T * 2 ^ T) < 2 ^ 106).
  { rewrite <- pow2_split by lia.
    apply Z.lt_le_trans with (2 ^ d * 2 ^ (T + T)).
    - apply Z.mul_lt_mono_pos_r; [apply Z.pow_pos_nonneg; lia | exact Bhi].
    - rewrite <- pow2_split by lia. apply Z.pow_le_mono_r; lia. }
  assert (Hq : 2 ^ 52 <= q < 2 ^ 53).
  { change (2 ^ 104) with (2 ^ 52 * 2 ^ 52) in H104.
    change (2 ^ 106) with (2 ^ 53 * 2 ^ 53) in H106.
    assert (0 <= q) by lia. split; nia. }
  destruct q as [|qp|qp]; try lia.
  assert (Hdq : Z.pos (digits2_pos qp) = 53).
  { apply digits2_pos_unique. change (2 ^ (53 - 1)) with (2 ^ 52). exact Hq. }
  rewrite binary_round_aux_53_loc by (assumption || lia).
  set (l := if r =? 0 then loc_Exact else loc_Inexact (if r <=? Z.pos qp then Lt else Gt)).
  assert (Hq' : round_nearest_even (Z.pos qp) l = Z.pos qp \/
                (round_nearest_even (Z.pos qp) l = Z.pos qp + 1 /\ Z.pos qp < r)).
  { unfold l. destruct (Z.eqb_spec r 0); [left; reflexivity|].
    destruct (Z.leb_spec r (Z.pos qp)); [left; reflexivity | right; split; [reflexivity | lia]]. }
  assert (Hroot : round_nearest_even (Z.pos qp) l / 2 ^ T = Z.sqrt (Z.pos p)).
  { apply (scaled_root_floor (Z.pos p) (2 ^ T) (Z.pos qp) r); try lia; try assumption.
    assert (Hk : Z.sqrt (Z.pos p) < 2 ^ 26).
    { apply Z.sqrt_lt_square; [lia | lia |]. change (2 ^ 26 * 2 ^ 26) with (2 ^ 52). lia. }
    assert (2 ^ 27 <= 2 ^ T) by (apply Z.pow_le_mono_r; lia).
    change (2 ^ 27) with (2 * 2 ^ 26) in *. lia. }
  destruct (Z.eqb_spec (round_nearest_even (Z.pos qp) l) (2 ^ 53)) as [E|NE].
  - unfold Binary64.int.
    destruct (Z.leb_spec 0 (- T + 1)); [lia|].
    f_equal. rewrite <- Hroot, E.
    replace (- (- T + 1)) with (T - 1) by lia.
    replace (Z.pos (Z.to_pos (2 ^ 52))) with (2 ^ 52) by (vm_compute; reflexivity).
    rewrite <- (Z.pow_sub_r 2 52 (T - 1)) by lia.
    rewrite <- (Z.pow_sub_r 2 53 T) by lia. f_equal. lia.
  - unfold Binary64.int.
    destruct (Z.leb_spec 0 (- T)); [lia|].
    f_equal. rewrite <- Hroot. rewrite Z2Pos.id by (destruct Hq' as [->|[-> _]]; lia).
    f_equal. f_equal. lia.
Qed.

(** Shifts of a mantissa: what is kept and what is lost. *)

Lemma shr_1_m (mrs : shr_record) :
  0 <= shr_m mrs -> shr_m (shr_1 mrs) = shr_m mrs / 2.
Proof.
  destruct mrs as [m r s]. cbn [shr_m]. intros Hm.
  destruct m as [|[p|p|]|p]; cbn [shr_1 shr_m]; try lia.
  - reflexivity.
  - apply Z.div_unique with 1; lia.
  - apply Z.div_unique with 0; lia.
  - reflexivity.
Qed.

Lemma iter_shr_1_m (p : positive) :
  forall mrs, 0 <= shr_m mrs -> shr_m (SpecFloat.iter_pos shr_1 p mrs) = shr_m mrs / 2 ^ Z.pos p.
Proof.
  induction p as [p IH|p IH|]; intros mrs Hm; cbn [SpecFloat.iter_pos];
    try assert (Hpp : 0 < 2 ^ Z.pos p) by (apply Z.pow_pos_nonneg; lia).
  - assert (H1 : 0 <= shr_m (shr_1 mrs)) by (rewrite shr_1_m by exact Hm; apply Z.div_pos; lia).
    assert (H2 : 0 <= shr_m (SpecFloat.iter_pos shr_1 p (shr_1 mrs)))
      by (rewrite IH by exact H1; apply Z.div_pos; [exact H1 | apply Z.pow_pos_nonneg; lia]).
    rewrite IH by exact H2. rewrite IH by exact H1. rewrite shr_1_m by exact Hm.
    rewrite !Z.div_div by lia.
    f_equal. change (Z.pos p~1) with (2 * Z.pos p + 1).
    replace (2 * Z.pos p + 1) with (Z.pos p + Z.pos p + 1) by lia.
    rewrite !Z.pow_add_r, Z.pow_1_r by lia. lia.
  - assert (H2 : 0 <= shr_m (SpecFloat.iter_pos shr_1 p mrs))
      by (rewrite IH by exact Hm; apply Z.div_pos; [exact Hm | apply Z.pow_pos_nonneg; lia]).
    rewrite IH by exact H2. rewrite IH by exact Hm.
    rewrite Z.div_div by lia.
    f_equal. change (Z.pos p~0) with (2 * Z.pos p).
    replace (2 * Z.pos p) with (Z.pos p + Z.pos p) by lia.
    rewrite Z.pow_add_r by lia. reflexivity.
  - rewrite shr_1_m by exact Hm. reflexivity.
Qed.

Lemma Zdigits2_bound (m k : Z) : 0 <= m < 2 ^ k -> 0 <= k -> Zdigits2 m <= k.
Proof.
  intros [Hlo Hhi] Hk. destruct m as [|p|p]; cbn [Zdigits2]; [exact Hk| |lia].
  pose proof (digits2_pos_bounds p) as [Blo _].
  destruct (Z.le_gt_cases (Z.pos (digits2_pos p)) k) as [Hle|Hgt]; [exact Hle|].
  assert (2 ^ k <= 2 ^ (Z.pos (digits2_pos p) - 1)) by (apply Z.pow_le_mono_r; lia). lia.
Qed.

Lemma round_nearest_even_bounds (m : Z) (l : location) :
  m <= round_nearest_even m l <= m + 1.
Proof. destruct l as [|[| |]]; cbn [round_nearest_even]; try lia. destruct (Z.even m); lia. Qed.

Lemma shr_1_exact (k : Z) :
  0 <= k ->
  shr_1 {| shr_m := 2 * k; shr_r := false; shr_s := false |} =
    {| shr_m := k; shr_r := false; shr_s := false |}.
Proof. intros Hk. destruct k as [|q|q]; [reflexivity | reflexivity | lia]. Qed.

Lemma iter_shr_1_exact (p : positive) :
  forall k, 0 <= k ->
    SpecFloat.iter_pos shr_1 p {| shr_m := 2 ^ Z.pos p * k; shr_r := false; shr_s := false |} =
      {| shr_m := k; shr_r := false; shr_s := false |}.
Proof.
  induction p as [p IH|p IH|]; intros k Hk; cbn [SpecFloat.iter_pos];
    try assert (Hpp : 0 < 2 ^ Z.pos p) by (apply Z.pow_pos_nonneg; lia).
  - replace (2 ^ Z.pos p~1 * k) with (2 * (2 ^ Z.pos p * (2 ^ Z.pos p * k))).
    + rewrite shr_1_exact by nia. rewrite IH by nia. apply IH. exact Hk.
    + change (Z.pos p~1) with (2 * Z.pos p + 1).
      replace (2 * Z.pos p + 1) with (Z.pos p + Z.pos p + 1) by lia.
      rewrite !Z.pow_add_r, Z.pow_1_r by lia. lia.
  - replace (2 ^ Z.pos p~0 * k) with (2 ^ Z.pos p * (2 ^ Z.pos p * k)).
    + rewrite IH by nia. apply IH. exact Hk.
    + change (Z.pos p~0) with (2 * Z.pos p).
      replace (2 * Z.pos p) with (Z.pos p + Z.pos p) by lia.
      rewrite Z.pow_add_r by lia. lia.
  - change (2 ^ 1) with 2. apply shr_1_exact. exact Hk.
Qed.

(** Shifting a mantissa that stands for a value of at most [N] < 2^53. *)
Lemma shr_fexp_bounded (m e N : Z) :
  0 <= m <= N * 2 ^ (- e) -> e <= 0 -> 0 <= N < 2 ^ 53 ->
  exists mrs e',
    shr_fexp Binary64.prec Binary64.emax m e loc_Exact = (mrs, e') /\
    e <= e' <= 0 /\ 0 <= shr_m mrs <= N * 2 ^ (- e') /\
    (shr_m mrs = N * 2 ^ (- e') -> loc_of_shr_record mrs = loc_Exact).
Proof.
  intros Hm He HN. unfold shr_fexp.
  assert (Hpe : 0 < 2 ^ (- e)) by (apply Z.pow_pos_nonneg; lia).
  assert (Hd : Zdigits2 m <= 53 - e).
  { apply Zdigits2_bound; [|lia]. split; [lia|].
    replace (53 - e) with (53 + - e) by lia. rewrite Z.pow_add_r by lia.
    assert (N * 2 ^ (- e) < 2 ^ 53 * 2 ^ (- e)) by (apply Z.mul_lt_mono_pos_r; lia). lia. }
  set (n := fexp Binary64.prec Binary64.emax (Zdigits2 m + e) - e).
  assert (Hn : e + n <= 0).
  { unfold n, fexp, emin, Binary64.prec, Binary64.emax. lia. }
  destruct n as [|p|p] eqn:En; cbn [shr shr_record_of_loc].
  - eexists _, _. split; [reflexivity|]. cbn [shr_m loc_of_shr_record]. repeat split; lia.
  - eexists _, _. split; [reflexivity|].
    assert (Hpp : 0 < 2 ^ Z.pos p) by (apply Z.pow_pos_nonneg; lia).
    assert (Hsplit : 2 ^ (- e) = 2 ^ Z.pos p * 2 ^ (- (e + Z.pos p))).
    { rewrite <- Z.pow_add_r by lia. f_equal. lia. }
    set (B := N * 2 ^ (- (e + Z.pos p))) in *.
    assert (HmB : m <= 2 ^ Z.pos p * B) by (unfold B; rewrite Hsplit in Hm; lia).
    rewrite iter_shr_1_m by (cbn [shr_m]; lia). cbn [shr_m].
    assert (Hq0 : 0 <= m / 2 ^ Z.pos p) by (apply Z.div_pos; lia).
    assert (HqB : m / 2 ^ Z.pos p <= B).
    { apply Z.div_le_upper_bound; lia. }
    split; [lia|]. split; [lia|].
    intros Heq.
    assert (Hmeq : m = 2 ^ Z.pos p * B).
    { pose proof (Z.mul_div_le m (2 ^ Z.pos p) Hpp). rewrite Heq in H. lia. }
    rewrite Hmeq. rewrite iter_shr_1_exact; [reflexivity|].
    unfold B. apply Z.mul_nonneg_nonneg; [lia | apply Z.pow_nonneg; lia].
  - eexists _, _. split; [reflexivity|]. cbn [shr_m loc_of_shr_record]. repeat split; lia.
Qed.

(** Rounding a value of at most [N] < 2^53 gives a number of at most [N]:
    an integer below 2^53 is a binary64 number, and rounding does not
    pass it. *)
Lemma binary_round_aux_bounded (m e N : Z) :
  0 <= m <= N * 2 ^ (- e) -> e <= 0 -> 0 <= N < 2 ^ 53 ->
  bounded_by N (binary_round_aux Binary64.prec Binary64.emax false m e loc_Exact).
Proof.
  intros Hm He HN. unfold binary_round_aux.
  destruct (shr_fexp_bounded m e N Hm He HN) as (mrs & e1 & -> & He1 & Hm1 & Hloc).
  set (m2 := round_nearest_even (shr_m mrs) (loc_of_shr_record mrs)).
  assert (Hm2 : 0 <= m2 <= N * 2 ^ (- e1)).
  { unfold m2. destruct (Z.eq_dec (shr_m mrs) (N * 2 ^ (- e1))) as [Heq|Hne].
    - rewrite (Hloc Heq). cbn [round_nearest_even]. lia.
    - pose proof (round_nearest_even_bounds (shr_m mrs) (loc_of_shr_record mrs)). lia. }
  destruct (shr_fexp_bounded m2 e1 N Hm2 ltac:(lia) HN) as (mrs2 & e2 & -> & He2 & Hm3 & _).
  destruct (shr_m mrs2) as [|q|q] eqn:Eq; cbn [bounded_by]; [exact I| |lia].
  unfold Binary64.prec, Binary64.emax.
  destruct (Z.leb_spec e2 (1024 - 53)); [|lia].
  cbn [bounded_by]. split; lia.
Qed.

Lemma shl_align_lower (m : positive) (e e' : Z) :
  e' <= e ->
  exists m', shl_align m e e' = (m', e') /\ Z.pos m' = Z.pos m * 2 ^ (e - e').
Proof.
  intros Hle. unfold shl_align.
  destruct (e' - e) as [|p|p] eqn:Ed; try lia.
  - assert (e' = e) by lia. subst e'. exists m. rewrite Z.sub_diag. split; [reflexivity | simpl; lia].
  - exists (Pos.iter xO m p). split; [reflexivity|].
    rewrite iter_xO. f_equal. f_equal. lia.
Qed.

Lemma shl_align_any (m : positive) (e t : Z) :
  exists m' e', shl_align m e t = (m', e') /\ e' <= e /\ Z.pos m' = Z.pos m * 2 ^ (e - e').
Proof.
  unfold shl_align. destruct (t - e) as [|p|p] eqn:Ed.
  - exists m, e. rewrite Z.sub_diag. split; [reflexivity|]. split; [lia | simpl; lia].
  - exists m, e. rewrite Z.sub_diag. split; [reflexivity|]. split; [lia | simpl; lia].
  - exists (Pos.iter xO m p), t. split; [reflexivity|]. split; [lia|].
    rewrite iter_xO. f_equal. f_equal. lia.
Qed.

(** ** The resolution in binary64 *)

(** C3 (as amended).  For every positive point count below 2^51 the
    resolution int(np.sqrt(2 * n_points)), computed in binary64, is the
    integer part (floor) of sqrt(2 * n_points); it is ceil(sqrt(2 *
    n_points)) exactly when 2 * n_points is a perfect square, as it is for
    the notebook's n_points = 450, where the resolution is 30. *)
Theorem res64_is_floor_sqrt (n_points : Z) :
  0 < n_points < 2 ^ 51 ->
  exists r,
    res64 n_points = Ok r /\
    0 <= r /\ r * r <= 2 * n_points < (r + 1) * (r + 1) /\
    (r = ceil_sqrt (2 * n_points) <-> r * r = 2 * n_points) /\
    (n_points = 450 -> r = 30).
Proof.
  intros [Hn0 Hn]. exists (Z.sqrt (2 * n_points)).
  assert (Hm : 0 < 2 * n_points < 2 ^ 52) by (change (2 ^ 52) with (2 * 2 ^ 51); lia).
  split.
  { unfold res64, int64.
    destruct (Z.ltb_spec (2 * n_points) (- 2 ^ 63)) as [Hlt|_];
      [change (- 2 ^ 63) with (- (2 ^ 11 * 2 ^ 52)) in Hlt; lia|].
    destruct (Z.leb_spec (2 ^ 64) (2 * n_points)) as [Hge|_];
      [change (2 ^ 64) with (2 ^ 12 * 2 ^ 52) in Hge; lia|].
    cbn [orb]. rewrite (int_sqrt_of_int _ Hm). reflexivity. }
  pose proof (Z.sqrt_spec (2 * n_points) ltac:(lia)) as Hs.
  pose proof (Z.sqrt_nonneg (2 * n_points)) as H0.
  split; [exact H0|]. split; [unfold Z.succ in Hs; lia|]. split.
  - unfold ceil_sqrt.
    destruct (Z.eqb_spec (Z.sqrt (2 * n_points) * Z.sqrt (2 * n_points)) (2 * n_points));
      split; intros; lia.
  - intros ->. reflexivity.
Qed.

(** Below 2^51 the exact resolution of the first part is the one the
    notebook computes in binary64. *)
Lemma resolution_agrees_with_binary64 (n_points : Z) :
  0 < n_points < 2 ^ 51 ->
  resolution n_points = Ok (Z.sqrt (2 * n_points)) /\
  Binary64.res n_points = Some (Z.sqrt (2 * n_points)).
Proof.
  intros [Hn0 Hn]. split; [apply resolution_nonneg; lia|].
  unfold Binary64.res. apply int_sqrt_of_int.
  change (2 ^ 52) with (2 * 2 ^ 51). lia.
Qed.

(** ** The split cell in binary64 *)

(** The count [int(x)] is the truncation of the number the rounded
    product stands for, not of the exact product. *)
Lemma int64_truncates_value (x : spec_float) (k : Z) :
  int64 x = Ok k -> k = py_int (float_value x).
Proof.
  unfold int64. destruct x as [s|s| |s m e]; simpl; intros Hk; try discriminate Hk.
  - inversion Hk. reflexivity.
  - inversion Hk as [Hk']. clear Hk Hk'.
    destruct (Z.leb_spec 0 e) as [He|He].
    + unfold py_int. simpl. rewrite Z.quot_1_r.
      destruct s; [rewrite <- Z.mul_opp_l|]; reflexivity.
    + unfold py_int. simpl.
      assert (Hpow : 0 < 2 ^ (- e)) by (apply Z.pow_pos_nonneg; lia).
      rewrite Z2Pos.id by exact Hpow.
      destruct s.
      * change (Z.neg m) with (- Z.pos m). rewrite Z.quot_opp_l by lia.
        rewrite Z.quot_div_nonneg by lia. reflexivity.
      * rewrite Z.quot_div_nonneg by lia. reflexivity.
Qed.

Lemma int64_bounded (N : Z) (x : spec_float) :
  0 <= N -> bounded_by N x -> exists k, int64 x = Ok k /\ 0 <= k <= N.
Proof.
  intros HN Hx. destruct x as [s|s| |[|] m e]; cbn [bounded_by] in Hx; try tauto.
  - exists 0. split; [reflexivity | lia].
  - destruct Hx as [He Hm]. unfold int64, Binary64.int.
    destruct (Z.leb_spec 0 e) as [He0|He0].
    + exists (Z.pos m * 2 ^ e). split; [reflexivity|].
      assert (e = 0) by lia. subst e. simpl in Hm |- *. lia.
    + exists (Z.pos m / 2 ^ (- e)). split; [reflexivity|].
      assert (Hp : 0 < 2 ^ (- e)) by (apply Z.pow_pos_nonneg; lia).
      split; [apply Z.div_pos; lia|].
      apply Z.div_le_upper_bound; lia.
Qed.

Lemma is_fraction64_bounded (frac : spec_float) : is_fraction64 frac -> bounded_by 1 frac.
Proof.
  intros (Hnum & Hlo & Hhi).
  destruct frac as [s|s| |s m e]; cbn [is_number64] in Hnum; try tauto; try exact I.
  cbn [float_value] in Hlo, Hhi.
  destruct (Z.leb_spec 0 e) as [He|He].
  - assert (Hp : 0 < 2 ^ e) by (apply Z.pow_pos_nonneg; lia).
    change 0%Q with (inject_Z 0) in Hlo. rewrite <- Zle_Qle in Hlo.
    change 1%Q with (inject_Z 1) in Hhi. rewrite <- Zle_Qle in Hhi.
    destruct s; [nia|]. cbn [bounded_by].
    assert (e = 0).
    { destruct (Z.eq_dec e 0) as [E|E]; [exact E|].
      assert (2 ^ 1 <= 2 ^ e) by (apply Z.pow_le_mono_r; lia).
      change (2 ^ 1) with 2 in H. nia. }
    subst e. simpl in Hhi |- *. lia.
  - assert (Hp : 0 < 2 ^ (- e)) by (apply Z.pow_pos_nonneg; lia).
    unfold Qle in Hlo, Hhi. cbn [Qnum Qden] in Hlo, Hhi.
    rewrite Z2Pos.id in Hhi by exact Hp.
    destruct s; [lia|]. cbn [bounded_by]. split; lia.
Qed.

Lemma of_int_one : Binary64.of_int 1 = S754_finite false 4503599627370496 (- 52).
Proof. reflexivity. Qed.

(** [1 - frac] stays between 0 and 1. *)
Lemma one_minus_fraction_bounded (frac : spec_float) :
  bounded_by 1 frac -> bounded_by 1 (Binary64.sub (Binary64.of_int 1) frac).
Proof.
  intros Hf. rewrite of_int_one.
  destruct frac as [s|s| |[|] mf ef]; cbn [bounded_by] in Hf; try tauto.
  - cbn [Binary64.sub SFsub bounded_by]. split; [lia|]. reflexivity.
  - destruct Hf as [Hef Hmf].
    unfold Binary64.sub, SFsub. cbn [cond_Zopp].
    set (ez := Z.min (- 52) ef).
    destruct (shl_align_lower 4503599627370496 (- 52) ez ltac:(unfold ez; lia)) as (a & -> & Ha).
    destruct (shl_align_lower mf ef ez ltac:(unfold ez; lia)) as (b & -> & Hb).
    cbn [fst].
    assert (Hez : ez <= - 52) by (unfold ez; lia).
    assert (Hpa : Z.pos a = 2 ^ (- ez)).
    { rewrite Ha. change 4503599627370496 with (2 ^ 52).
      rewrite <- Z.pow_add_r by lia. f_equal. lia. }
    assert (Hpb : Z.pos b <= 2 ^ (- ez)).
    { rewrite Hb. replace (- ez) with (- ef + (ef - ez)) by lia.
      rewrite Z.pow_add_r by (unfold ez; lia).
      apply Z.mul_le_mono_nonneg_r; [apply Z.pow_nonneg; lia | lia]. }
    destruct (Z.pos a - Z.pos b) as [|pD|pD] eqn:ED; [exact I| |lia].
    unfold binary_normalize, binary_round.
    destruct (shl_align_any pD ez (fexp Binary64.prec Binary64.emax (Z.pos (digits2_pos pD) + ez)))
      as (mz & ez' & -> & Hez' & Hmz).
    apply binary_round_aux_bounded; [|lia|lia].
    split; [lia|]. rewrite Hmz, Z.mul_1_l.
    replace (- ez') with (- ez + (ez - ez')) by lia. rewrite Z.pow_add_r by lia.
    apply Z.mul_le_mono_nonneg_r; [apply Z.pow_nonneg; lia | lia].
Qed.

(** The product of a fraction and a length below 2^53 stays between 0
    and the length. *)
Lemma fraction_times_length_bounded (frac : spec_float) (N : Z) :
  bounded_by 1 frac -> 0 <= N < 2 ^ 53 ->
  exists N', float_of_int N = Ok N' /\ bounded_by N (Binary64.mul frac N').
Proof.
  intros Hf HN. destruct N as [|p|p]; [| |lia].
  - exists (S754_zero false). split; [reflexivity|].
    destruct frac as [s|s| |[|] mf ef]; cbn [bounded_by] in Hf; try tauto; exact I.
  - destruct (of_int_exact p ltac:(lia)) as (mN & eN & HofN & _ & HeN & HmN).
    exists (S754_finite false mN eN). split; [unfold float_of_int; rewrite HofN; reflexivity|].
    pose proof (digits2_pos_bounds p) as [_ Bhi].
    assert (HeN0 : eN <= 0).
    { rewrite HeN. destruct (Z.le_gt_cases (Z.pos (digits2_pos p)) 53) as [Hle|Hgt]; [lia|].
      assert (2 ^ 53 <= 2 ^ (Z.pos (digits2_pos p) - 1)) by (apply Z.pow_le_mono_r; lia).
      pose proof (digits2_pos_bounds p) as [Blo _]. lia. }
    destruct frac as [s|s| |[|] mf ef]; cbn [bounded_by] in Hf; try tauto; try exact I.
    destruct Hf as [Hef Hmf].
    unfold Binary64.mul, SFmul. cbn [xorb].
    apply binary_round_aux_bounded; [|lia|lia].
    split; [lia|]. rewrite Pos2Z.inj_mul, HmN.
    replace (- (ef + eN)) with (- ef + - eN) by lia. rewrite Z.pow_add_r by lia.
    assert (0 < 2 ^ (- eN)) by (apply Z.pow_pos_nonneg; lia).
    assert (Z.pos mf * (Z.pos p * 2 ^ (- eN)) <= 2 ^ (- ef) * (Z.pos p * 2 ^ (- eN)))
      by (apply Z.mul_le_mono_nonneg_r; lia).
    lia.
Qed.

(** For a fraction and a length below 2^53 both counts are defined and
    lie between 0 and the length. *)
Lemma counts_of_a_fraction (frac : spec_float) (N : Z) :
  is_fraction64 frac -> 0 <= N < 2 ^ 53 ->
  exists kt kv,
    train_count frac N = Ok kt /\ val_count frac N = Ok kv /\
    0 <= kt <= N /\ 0 <= kv <= N.
Proof.
  intros Hf HN. apply is_fraction64_bounded in Hf.
  destruct (fraction_times_length_bounded frac N Hf HN) as (N' & HN' & Ht).
  destruct (fraction_times_length_bounded _ N (one_minus_fraction_bounded frac Hf) HN)
    as (N'' & HN'' & Hv).
  assert (N'' = N') by congruence. subst N''.
  destruct (int64_bounded N _ ltac:(lia) Ht) as (kt & Hkt & Bt).
  destruct (int64_bounded N _ ltac:(lia) Hv) as (kv & Hkv & Bv).
  exists kt, kv. unfold train_count, val_count. rewrite HN'. simpl.
  split; [exact Hkt|]. split; [exact Hkv|]. split; assumption.
Qed.

Section Partition64Theorems.
Context {G : Type} `{RandomState G}.
Context {X Y : Type}.
Implicit Types (g : G) (Xs : list X) (ys : list Y).

Lemma split64_after_shuffle g (frac : spec_float) Xs ys Xs' ys' g' (kt kv : Z) :
  sk_shuffle g Xs ys = Ok (Xs', ys', g') ->
  train_count frac (Z.of_nat (length Xs)) = Ok kt ->
  val_count frac (Z.of_nat (length Xs)) = Ok kv ->
  split64 g frac (Xs, ys) =
    Ok ((slice_to kt Xs', slice_to kt ys'), (slice_from (- kv) Xs', slice_from (- kv) ys'), g').
Proof.
  intros Hs Hkt Hkv. unfold split64. cbn [fst snd].
  rewrite Hs. simpl. rewrite Hkt. simpl. rewrite Hkv. reflexivity.
Qed.

(** Whatever the fraction: when the two counts k_t = int(frac * N) and
    k_v = int((1 - frac) * N) are defined and k_t >= 0, the cell takes the
    first k_t entries of the shuffled arrays as the training subset and,
    when k_v >= 1, the last k_v entries as the validation subset (all N
    entries when a count exceeds N). *)
Lemma split64_slices_at_the_counts g (frac : spec_float) Xs ys (kt kv : Z) :
  length Xs = length ys ->
  train_count frac (Z.of_nat (length Xs)) = Ok kt ->
  val_count frac (Z.of_nat (length Xs)) = Ok kv ->
  0 <= kt ->
  exists Xs' ys' g' data_train data_val,
    sk_shuffle g Xs ys = Ok (Xs', ys', g') /\
    split64 g frac (Xs, ys) = Ok (data_train, data_val, g') /\
    kt = py_int (float_value
           (Binary64.mul frac (Binary64.of_int (Z.of_nat (length Xs))))) /\
    kv = py_int (float_value
           (Binary64.mul (Binary64.sub (Binary64.of_int 1) frac)
              (Binary64.of_int (Z.of_nat (length Xs))))) /\
    data_train = (first_entries (Z.to_nat kt) Xs', first_entries (Z.to_nat kt) ys') /\
    length data_train.1 = Nat.min (Z.to_nat kt) (length Xs) /\
    length data_train.2 = Nat.min (Z.to_nat kt) (length Xs) /\
    (1 <= kv ->
       data_val = (last_entries (Z.to_nat kv) Xs', last_entries (Z.to_nat kv) ys') /\
       length data_val.1 = Nat.min (Z.to_nat kv) (length Xs) /\
       length data_val.2 = Nat.min (Z.to_nat kv) (length Xs)).
Proof.
  intros Hlen Hkt Hkv Hkt0.
  destruct (sk_shuffle_Ok g Xs ys Hlen) as (Xs' & ys' & Hs & Hthrough).
  destruct Hthrough as (_ & HlX & Hly & _).
  exists Xs', ys', (rs_shuffle_arange g (length Xs)).2. eexists. eexists.
  split; [exact Hs|].
  split; [apply (split64_after_shuffle g frac Xs ys Xs' ys' _ kt kv); assumption|].
  assert (Hvt : kt = py_int (float_value
                  (Binary64.mul frac (Binary64.of_int (Z.of_nat (length Xs)))))).
  { unfold train_count, float_of_int in Hkt.
    destruct (Binary64.of_int (Z.of_nat (length Xs))); simpl in Hkt;
      try discriminate Hkt; apply int64_truncates_value; exact Hkt. }
  assert (Hvv : kv = py_int (float_value
                  (Binary64.mul (Binary64.sub (Binary64.of_int 1) frac)
                     (Binary64.of_int (Z.of_nat (length Xs)))))).
  { unfold val_count, float_of_int in Hkv.
    destruct (Binary64.of_int (Z.of_nat (length Xs))); simpl in Hkv;
      try discriminate Hkv; apply int64_truncates_value; exact Hkv. }
  split; [exact Hvt|]. split; [exact Hvv|].
  cbn [fst snd]. rewrite !slice_to_nonneg by exact Hkt0.
  unfold first_entries. rewrite !length_take, HlX, Hly.
  split; [reflexivity|]. split; [reflexivity|]. split; [reflexivity|].
  intros Hpos. rewrite !slice_from_negative by lia.
  unfold last_entries. rewrite !length_drop, HlX, Hly.
  split; [reflexivity|]. split; lia.
Qed.

(** C1 (as amended).  For a dataset of length N < 2^53 and a binary64
    train fraction between 0 and 1, the two counts k_t = int(frac * N) and
    k_v = int((1 - frac) * N) are defined and lie between 0 and N; each is
    the truncation of the product as binary64 rounds it, not a ceiling.
    The cell takes the first k_t entries of the shuffled arrays as the
    training subset and, when k_v >= 1, the last k_v entries as the
    validation subset.  For N = 384 and frac = 2/3 the counts are 256 and
    128. *)
Theorem split64_takes_truncated_prefix_and_suffix g (frac : spec_float) Xs ys :
  length Xs = length ys ->
  is_fraction64 frac ->
  Z.of_nat (length Xs) < 2 ^ 53 ->
  exists kt kv Xs' ys' g' data_train data_val,
    train_count frac (Z.of_nat (length Xs)) = Ok kt /\
    val_count frac (Z.of_nat (length Xs)) = Ok kv /\
    0 <= kt <= Z.of_nat (length Xs) /\ 0 <= kv <= Z.of_nat (length Xs) /\
    kt = py_int (float_value
           (Binary64.mul frac (Binary64.of_int (Z.of_nat (length Xs))))) /\
    kv = py_int (float_value
           (Binary64.mul (Binary64.sub (Binary64.of_int 1) frac)
              (Binary64.of_int (Z.of_nat (length Xs))))) /\
    sk_shuffle g Xs ys = Ok (Xs', ys', g') /\
    split64 g frac (Xs, ys) = Ok (data_train, data_val, g') /\
    data_train = (first_entries (Z.to_nat kt) Xs', first_entries (Z.to_nat kt) ys') /\
    length data_train.1 = Z.to_nat kt /\ length data_train.2 = Z.to_nat kt /\
    (1 <= kv ->
       data_val = (last_entries (Z.to_nat kv) Xs', last_entries (Z.to_nat kv) ys') /\
       length data_val.1 = Z.to_nat kv /\ length data_val.2 = Z.to_nat kv) /\
    (length Xs = 384%nat -> frac = float_ratio 2 3 ->
       kt = 256 /\ kv = 128 /\
       length data_train.1 = 256%nat /\ length data_val.1 = 128%nat).
Proof.
  intros Hlen Hfrac HN.
  destruct (counts_of_a_fraction frac (Z.of_nat (length Xs)) Hfrac ltac:(lia))
    as (kt & kv & Hkt & Hkv & Bt & Bv).
  destruct (split64_slices_at_the_counts g frac Xs ys kt kv Hlen Hkt Hkv ltac:(lia))
    as (Xs' & ys' & g' & data_train & data_val & Hs & Hrun & Hvt & Hvv & Htrain & Ht1 & Ht2 & Hval).
  exists kt, kv, Xs', ys', g', data_train, data_val.
  split; [exact Hkt|]. split; [exact Hkv|]. split; [exact Bt|]. split; [exact Bv|].
  split; [exact Hvt|]. split; [exact Hvv|]. split; [exact Hs|]. split; [exact Hrun|].
  split; [exact Htrain|].
  split; [rewrite Ht1; lia|]. split; [rewrite Ht2; lia|].
  split.
  - intros Hpos. destruct (Hval Hpos) as (Hv & Hv1 & Hv2).
    split; [exact Hv|]. split; [rewrite Hv1; lia | rewrite Hv2; lia].
  - intros H384 Hf. rewrite H384, Hf in Hkt, Hkv.
    vm_compute in Hkt. vm_compute in Hkv.
    assert (Ekt : kt = 256) by congruence.
    assert (Ekv : kv = 128) by congruence.
    split; [exact Ekt|]. split; [exact Ekv|].
    destruct (Hval ltac:(lia)) as (_ & Hv1 & _).
    rewrite Ht1, Hv1, H384, Ekt, Ekv. split; reflexivity.
Qed.

(** With a validation count of zero the slice [d[-0:]] is the entire
    shuffled dataset, in binary64 as in the exact embedding. *)
Lemma split64_validation_entire_when_count_is_zero g (frac : spec_float) Xs ys (kt : Z) :
  length Xs = length ys ->
  train_count frac (Z.of_nat (length Xs)) = Ok kt ->
  val_count frac (Z.of_nat (length Xs)) = Ok 0 ->
  exists Xs' ys' g' data_train,
    sk_shuffle g Xs ys = Ok (Xs', ys', g') /\
    split64 g frac (Xs, ys) = Ok (data_train, (Xs', ys'), g').
Proof.
  intros Hlen Hkt Hkv.
  destruct (sk_shuffle_Ok g Xs ys Hlen) as (Xs' & ys' & Hs & _).
  exists Xs', ys', (rs_shuffle_arange g (length Xs)).2. eexists.
  split; [exact Hs|].
  rewrite (split64_after_shuffle g frac Xs ys Xs' ys' _ kt 0 Hs Hkt Hkv).
  change (- 0) with 0. rewrite !slice_from_zero. reflexivity.
Qed.

(** X1.  When the two counts are defined with k_t >= 0, k_v >= 1 and
    k_t + k_v <= N, the training and the validation subsets are disjoint
    parts of the shuffled dataset: up to order, the dataset's (grid,
    label) pairs are those of the training subset, those of the validation
    subset and N - k_t - k_v pairs that are in neither. *)
Theorem split64_partitions_up_to_skipped_pairs
    g (frac : spec_float) Xs ys (kt kv : Z) :
  length Xs = length ys ->
  train_count frac (Z.of_nat (length Xs)) = Ok kt ->
  val_count frac (Z.of_nat (length Xs)) = Ok kv ->
  0 <= kt -> 1 <= kv -> kt + kv <= Z.of_nat (length Xs) ->
  exists data_train data_val g' skipped,
    split64 g frac (Xs, ys) = Ok (data_train, data_val, g') /\
    zip Xs ys ≡ₚ zip data_train.1 data_train.2 ++ skipped ++ zip data_val.1 data_val.2 /\
    Z.of_nat (length skipped) = Z.of_nat (length Xs) - kt - kv.
Proof.
  intros Hlen Hkt Hkv Hkt0 Hkv1 Hsum.
  destruct (sk_shuffle_Ok g Xs ys Hlen) as (Xs' & ys' & Hs & Hthrough).
  destruct (sk_shuffle_permutes_pairs _ _ _ _ _ _ Hs) as [Hlen' Hperm].
  destruct Hthrough as (_ & HlX & Hly & _).
  set (nt := Z.to_nat kt). set (nv := Z.to_nat kv).
  exists (take nt Xs', take nt ys'),
         (drop (length Xs - nv) Xs', drop (length Xs - nv) ys'),
         (rs_shuffle_arange g (length Xs)).2,
         (take (length Xs - nv - nt) (drop nt (zip Xs' ys'))).
  split.
  { rewrite (split64_after_shuffle g frac Xs ys Xs' ys' _ kt kv Hs Hkt Hkv).
    rewrite !slice_to_nonneg by exact Hkt0.
    rewrite !slice_from_negative by lia.
    rewrite HlX, Hly. reflexivity. }
  assert (Hzlen : length (zip Xs' ys') = length Xs).
  { rewrite length_zip_with, <- Hlen', Nat.min_id. exact HlX. }
  split.
  { rewrite <- Hperm. cbn [fst snd].
    rewrite <- zip_with_take, <- zip_with_drop.
    rewrite app_assoc, take_take_drop.
    replace (nt + (length Xs - nv - nt))%nat with (length Xs - nv)%nat
      by (unfold nt, nv; lia).
    rewrite take_drop. reflexivity. }
  rewrite length_take, length_drop, Hzlen. unfold nt, nv. lia.
Qed.
End Partition64Theorems.

(** ** The normalisation in binary64 *)

(** The order of [>] on absolute values. *)

Lemma SFabs_is_magnitude (x : spec_float) : is_number64 x -> is_magnitude (SFabs x).
Proof. destruct x; simpl; tauto. Qed.

Lemma gt64_refl (a : spec_float) : is_magnitude a -> gt64 a a = false.
Proof.
  destruct a as [s|s| |[|] m e]; simpl; try tauto; intros _; unfold gt64; simpl;
    try reflexivity.
  rewrite Z.compare_refl, Pos.compare_cont_refl. reflexivity.
Qed.

Lemma gt64_finite (m1 m2 : positive) (e1 e2 : Z) :
  gt64 (S754_finite false m1 e1) (S754_finite false m2 e2) = false <->
  e1 < e2 \/ (e1 = e2 /\ (m1 <= m2)%positive).
Proof.
  unfold gt64. simpl.
  destruct (Z.compare_spec e1 e2) as [He|He|He].
  - fold (Pos.compare m1 m2). destruct (Pos.compare_spec m1 m2) as [Hm|Hm|Hm]; split; intros Hg;
      try discriminate Hg; try reflexivity; try (right; split; [exact He|lia]); lia.
  - split; [left; exact He | reflexivity].
  - split; [discriminate | lia].
Qed.

Lemma gt64_asym (a b : spec_float) :
  is_magnitude a -> is_magnitude b -> gt64 a b = true -> gt64 b a = false.
Proof.
  destruct a as [s|s| |[|] m1 e1], b as [s'|s'| |[|] m2 e2]; simpl; try tauto; intros _ _;
    try (unfold gt64; simpl; congruence).
  intros Hg. apply gt64_finite.
  destruct (gt64 (S754_finite false m2 e2) (S754_finite false m1 e1)) eqn:Hb.
  - revert Hg Hb. unfold gt64. simpl.
    destruct (Z.compare_spec e1 e2), (Z.compare_spec e2 e1); try lia; try discriminate.
    fold (Pos.compare m1 m2). fold (Pos.compare m2 m1).
    destruct (Pos.compare_spec m1 m2), (Pos.compare_spec m2 m1); try lia; discriminate.
  - apply gt64_finite in Hb. exact Hb.
Qed.

Lemma gt64_trans (a b c : spec_float) :
  is_magnitude a -> is_magnitude b -> is_magnitude c ->
  gt64 a b = false -> gt64 b c = false -> gt64 a c = false.
Proof.
  destruct a as [s|s| |[|] m1 e1], b as [s'|s'| |[|] m2 e2], c as [s''|s''| |[|] m3 e3];
    simpl; try tauto; intros _ _ _; try (unfold gt64; simpl; congruence).
  rewrite !gt64_finite. lia.
Qed.

Lemma py_max64_fold_spec (rest : list spec_float) :
  forall x, Forall is_magnitude (x :: rest) ->
    let r := fold_left (fun m v => if gt64 v m then v else m) rest x in
    r ∈ x :: rest /\ Forall (fun v => gt64 v r = false) (x :: rest).
Proof.
  induction rest as [|v rest IH]; intros x Hall; cbn [fold_left].
  - split; [left|]. constructor; [|constructor]. apply gt64_refl. inversion Hall; assumption.
  - inversion Hall as [|? ? Hx Hrest]; subst. inversion Hrest as [|? ? Hv Hrest']; subst.
    set (x' := if gt64 v x then v else x).
    assert (Hx' : is_magnitude x') by (unfold x'; destruct (gt64 v x); assumption).
    assert (Hall' : Forall is_magnitude (x' :: rest)) by (constructor; assumption).
    destruct (IH x' Hall') as [Hin Hle].
    inversion Hle as [|? ? Hx'r Hrestr]; subst.
    assert (Hr : is_magnitude (fold_left (fun m v0 => if gt64 v0 m then v0 else m) rest x')).
    { eapply Forall_forall; [exact Hall'|exact Hin]. }
    split.
    + apply elem_of_cons in Hin as [Heq|Hin].
      * rewrite Heq. unfold x'. destruct (gt64 v x); [right; left | left].
      * right; right; exact Hin.
    + assert (Hxx' : gt64 x x' = false).
      { unfold x'. destruct (gt64 v x) eqn:Hg; [apply gt64_asym; assumption | apply gt64_refl; assumption]. }
      assert (Hvx' : gt64 v x' = false).
      { unfold x'. destruct (gt64 v x) eqn:Hg; [apply gt64_refl; assumption | exact Hg]. }
      constructor; [eapply gt64_trans; [| | |exact Hxx'|exact Hx'r]; assumption|].
      constructor; [eapply gt64_trans; [| | |exact Hvx'|exact Hx'r]; assumption|].
      exact Hrestr.
Qed.

Lemma py_max64_spec (l : list spec_float) (m : spec_float) :
  Forall is_magnitude l -> py_max64 l = Ok m ->
  m ∈ l /\ Forall (fun v => gt64 v m = false) l.
Proof.
  destruct l as [|x rest]; intros Hall Hm; [discriminate Hm|].
  simpl in Hm. inversion Hm; subst. apply py_max64_fold_spec. exact Hall.
Qed.

(** The quotient by the axis maximum. *)

(** A mantissa below 2^(1 - e) at an exponent e <= -52 is shifted to one
    below 2^(1 - e') at an exponent e' <= -52. *)
Lemma shr_fexp_small (m e : Z) (l : location) :
  0 <= m < 2 ^ (1 - e) -> e <= - 52 ->
  exists mrs e', shr_fexp Binary64.prec Binary64.emax m e l = (mrs, e') /\
    0 <= shr_m mrs < 2 ^ (1 - e') /\ e <= e' <= - 52.
Proof.
  intros Hm He. unfold shr_fexp.
  assert (Hd : Zdigits2 m <= 1 - e) by (apply Zdigits2_bound; [exact Hm | lia]).
  assert (Hdn : 0 <= Zdigits2 m) by (destruct m; simpl; lia).
  set (n := fexp Binary64.prec Binary64.emax (Zdigits2 m + e) - e).
  assert (Hn : n <= - 52 - e).
  { unfold n, fexp, emin, Binary64.prec, Binary64.emax. lia. }
  destruct n as [|p|p] eqn:En; cbn [shr].
  - eexists _, _. split; [reflexivity|]. rewrite shr_m_record_of_loc. split; [exact Hm | lia].
  - eexists _, _. split; [reflexivity|].
    rewrite iter_shr_1_m by (rewrite shr_m_record_of_loc; lia).
    rewrite shr_m_record_of_loc. split; [|lia]. split.
    + apply Z.div_pos; [lia | apply Z.pow_pos_nonneg; lia].
    + apply Z.div_lt_upper_bound; [apply Z.pow_pos_nonneg; lia|].
      rewrite <- Z.pow_add_r by lia. replace (Z.pos p + (1 - (e + Z.pos p))) with (1 - e) by lia.
      lia.
  - eexists _, _. split; [reflexivity|]. rewrite shr_m_record_of_loc. split; [exact Hm | lia].
Qed.

Lemma binary_round_aux_small (s : bool) (m e : Z) (l : location) :
  0 <= m < 2 ^ (1 - e) -> e <= - 53 ->
  is_number64 (binary_round_aux Binary64.prec Binary64.emax s m e l).
Proof.
  intros Hm He. unfold binary_round_aux.
  destruct (shr_fexp_small m e l Hm ltac:(lia)) as (mrs & e1 & -> & Hm1 & He1).
  pose proof (round_nearest_even_bounds (shr_m mrs) (loc_of_shr_record mrs)) as Hr.
  set (m2 := round_nearest_even (shr_m mrs) (loc_of_shr_record mrs)) in *.
  assert (Hm2 : 0 <= m2 < 2 ^ (1 - (e1 - 1))).
  { replace (1 - (e1 - 1)) with (Z.succ (1 - e1)) by lia. rewrite Z.pow_succ_r by lia. lia. }
  unfold shr_fexp.
  assert (Hd : Zdigits2 m2 <= 1 - (e1 - 1)) by (apply Zdigits2_bound; [exact Hm2 | lia]).
  set (n := fexp Binary64.prec Binary64.emax (Zdigits2 m2 + e1) - e1).
  assert (Hn : e1 + n <= - 51).
  { unfold n, fexp, emin, Binary64.prec, Binary64.emax. lia. }
  destruct n as [|p|p] eqn:En; cbn [shr shr_record_of_loc shr_m].
  - destruct m2 as [|q|q]; cbn [is_number64]; try exact I; [|lia].
    unfold Binary64.prec, Binary64.emax.
    destruct (Z.leb_spec e1 (1024 - 53)); [exact I | lia].
  - pose proof (iter_shr_1_m p {| shr_m := m2; shr_r := false; shr_s := false |}) as Hit.
    cbn [shr_m] in Hit. specialize (Hit ltac:(lia)).
    assert (0 <= m2 / 2 ^ Z.pos p) by (apply Z.div_pos; [lia | apply Z.pow_pos_nonneg; lia]).
    destruct (shr_m (SpecFloat.iter_pos shr_1 p {| shr_m := m2; shr_r := false; shr_s := false |}))
      as [|q|q]; cbn [is_number64]; try exact I; [|lia].
    unfold Binary64.prec, Binary64.emax.
    destruct (Z.leb_spec (e1 + Z.pos p) (1024 - 53)); [exact I | lia].
  - destruct m2 as [|q|q]; cbn [is_number64]; try exact I; [|lia].
    unfold Binary64.prec, Binary64.emax.
    destruct (Z.leb_spec e1 (1024 - 53)); [exact I | lia].
Qed.

Lemma canonical_digits (m : positive) (e : Z) :
  valid_binary Binary64.prec Binary64.emax (S754_finite false m e) = true ->
  e = Z.max (Z.pos (digits2_pos m) + e - 53) (- 1074).
Proof.
  cbn [valid_binary]. unfold bounded, canonical_mantissa, fexp, emin, Binary64.prec, Binary64.emax.
  intros Hb. apply andb_prop in Hb as [Hc _]. apply Z.eqb_eq in Hc. lia.
Qed.

Lemma digits2_pos_mono (m1 m2 : positive) :
  (m1 <= m2)%positive -> Z.pos (digits2_pos m1) <= Z.pos (digits2_pos m2).
Proof.
  intros Hle. pose proof (digits2_pos_bounds m1) as [B1 _].
  pose proof (digits2_pos_bounds m2) as [_ B2].
  destruct (Z.le_gt_cases (Z.pos (digits2_pos m1)) (Z.pos (digits2_pos m2))) as [H|H]; [exact H|].
  assert (2 ^ Z.pos (digits2_pos m2) <= 2 ^ (Z.pos (digits2_pos m1) - 1))
    by (apply Z.pow_le_mono_r; lia).
  lia.
Qed.

(** The quotient of a number by a number that is not smaller in
    magnitude and not zero is a number: the division cannot overflow. *)
Lemma truediv_by_larger_is_number (x y : spec_float) :
  is_number64 x -> is_binary64 x -> is_binary64 y ->
  is_magnitude y -> is_zero64 y = false ->
  gt64 (SFabs x) y = false ->
  is_number64 (Binary64.truediv x y).
Proof.
  intros Hx Vx Vy Hy Hnz Hle.
  destruct y as [sy|sy| |[|] m2 e2]; simpl in Hy, Hnz; try tauto; try discriminate Hnz.
  destruct x as [sx|sx| |sx m1 e1]; simpl in Hx; try tauto; try exact I.
  cbn [SFabs] in Hle. apply gt64_finite in Hle.
  assert (V1 : valid_binary Binary64.prec Binary64.emax (S754_finite false m1 e1) = true)
    by exact Vx.
  apply canonical_digits in V1. apply canonical_digits in Vy.
  set (d1 := Z.pos (digits2_pos m1)) in *. set (d2 := Z.pos (digits2_pos m2)) in *.
  assert (Hd12 : d1 + e1 <= d2 + e2).
  { destruct Hle as [Hlt|[Heq Hm]]; [lia|].
    pose proof (digits2_pos_mono m1 m2 Hm). fold d1 d2 in H. lia. }
  unfold Binary64.truediv, SFdiv, SFdiv_core_binary. cbn [Zdigits2]. fold d1 d2.
  change (fexp Binary64.prec Binary64.emax (d1 + e1 - (d2 + e2)))
    with (Z.max (d1 + e1 - (d2 + e2) - 53) (- 1074)).
  set (e' := Z.min (Z.max (d1 + e1 - (d2 + e2) - 53) (- 1074)) (e1 - e2)).
  assert (He' : e' <= - 53) by (unfold e'; lia).
  assert (Hs : 0 <= e1 - e2 - e') by (unfold e'; lia).
  set (m' := match e1 - e2 - e' with
             | 0 => Z.pos m1 | Z.pos _ => Z.shiftl (Z.pos m1) (e1 - e2 - e') | Z.neg _ => 0 end).
  assert (Hm' : m' = Z.pos m1 * 2 ^ (e1 - e2 - e')).
  { unfold m'. destruct (e1 - e2 - e') as [|p|p] eqn:Es.
    - simpl. lia.
    - rewrite Z.shiftl_mul_pow2 by lia. reflexivity.
    - lia. }
  pose proof (Z_div_mod m' (Z.pos m2) ltac:(lia)) as Hdm.
  destruct (Z.div_eucl m' (Z.pos m2)) as [q r]. destruct Hdm as [Hq Hr].
  apply binary_round_aux_small; [|exact He'].
  pose proof (digits2_pos_bounds m1) as [_ B1]. fold d1 in B1.
  pose proof (digits2_pos_bounds m2) as [B2 _]. fold d2 in B2.
  assert (Hd1 : 0 < d1) by (unfold d1; lia).
  assert (Hd2 : 0 < d2) by (unfold d2; lia).
  assert (Hpow : 0 < 2 ^ (e1 - e2 - e')) by (apply Z.pow_pos_nonneg; lia).
  assert (Hq0 : 0 <= q) by nia.
  split; [exact Hq0|].
  assert (Hub : q * 2 ^ (d2 - 1) < 2 ^ (d1 + (e1 - e2 - e'))).
  { rewrite Z.pow_add_r by lia.
    assert (q * 2 ^ (d2 - 1) <= q * Z.pos m2) by (apply Z.mul_le_mono_nonneg_l; lia).
    assert (Z.pos m1 * 2 ^ (e1 - e2 - e') < 2 ^ d1 * 2 ^ (e1 - e2 - e'))
      by (apply Z.mul_lt_mono_pos_r; lia).
    lia. }
  destruct (Z.le_gt_cases (2 ^ (1 - e')) q) as [Hbig|Hsmall]; [|exact Hsmall].
  exfalso.
  assert (2 ^ (1 - e') * 2 ^ (d2 - 1) <= q * 2 ^ (d2 - 1))
    by (apply Z.mul_le_mono_nonneg_r; [apply Z.pow_nonneg; lia | exact Hbig]).
  rewrite <- Z.pow_add_r in H by lia.
  assert (2 ^ (d1 + (e1 - e2 - e')) <= 2 ^ (1 - e' + (d2 - 1))) by (apply Z.pow_le_mono_r; lia).
  lia.
Qed.

Lemma truediv_zero_by_zero (x y : spec_float) :
  is_number64 x -> is_zero64 y = true -> gt64 (SFabs x) y = false ->
  Binary64.truediv x y = S754_nan.
Proof.
  intros Hx Hz Hle. destruct y as [sy|sy| |sy m2 e2]; try discriminate Hz.
  destruct x as [sx|sx| |sx m1 e1]; simpl in Hx; try tauto; try reflexivity.
  discriminate Hle.
Qed.

Lemma max_abs64_cols_nonempty (test_i : list (spec_float * spec_float)) :
  test_i <> [] ->
  exists mx my, max_abs64_col0 test_i = Ok mx /\ max_abs64_col1 test_i = Ok my.
Proof.
  intros Hne. unfold max_abs64_col0, max_abs64_col1.
  destruct test_i as [|row rest]; [contradiction|]. simpl. eauto.
Qed.

Lemma normalise64_loop_maps (test_i : list (spec_float * spec_float)) (mx my : spec_float) :
  max_abs64_col0 test_i = Ok mx -> max_abs64_col1 test_i = Ok my ->
  forall todo testX,
    normalise64_loop test_i todo testX =
      Ok (testX ++ map (fun row => (Binary64.truediv row.1 mx, Binary64.truediv row.2 my)) todo).
Proof.
  intros Hx Hy. induction todo as [|row rest IH]; intros testX; simpl.
  - rewrite app_nil_r. reflexivity.
  - rewrite Hx, Hy. simpl. rewrite IH, <- app_assoc. reflexivity.
Qed.

Lemma max_abs64_spec (f : spec_float * spec_float -> spec_float)
    (test_i : list (spec_float * spec_float)) (m : spec_float) :
  Forall (fun row => is_number64 (f row)) test_i ->
  py_max64 (map (fun r => SFabs (f r)) test_i) = Ok m ->
  (exists r, r ∈ test_i /\ m = SFabs (f r)) /\
  forall r, r ∈ test_i -> gt64 (SFabs (f r)) m = false.
Proof.
  intros Hnum Hm.
  assert (Hmag : Forall is_magnitude (map (fun r => SFabs (f r)) test_i)).
  { apply Forall_fmap. eapply Forall_impl; [exact Hnum|].
    intros r Hr. apply SFabs_is_magnitude. exact Hr. }
  destruct (py_max64_spec _ _ Hmag Hm) as [Hin Hall]. split.
  - apply list_elem_of_fmap in Hin as (r & -> & Hr). eauto.
  - intros r Hr. rewrite Forall_forall in Hall. apply Hall.
    apply list_elem_of_fmap. exists r. split; [reflexivity | exact Hr].
Qed.

Lemma SFabs_is_binary64 (x : spec_float) : is_binary64 x -> is_binary64 (SFabs x).
Proof. destruct x; simpl; tauto. Qed.

(** C6 (as amended).  For a trajectory read as a two-column table whose
    entries are finite binary64 numbers, the normalisation does not raise
    and divides every coordinate, in binary64, by the largest absolute
    value found on its axis.  Where that maximum is not zero the quotient
    is a finite number; where it is zero the division is carried out all
    the same (there is no guard): it is 0/0 and gives NaN. *)
Theorem normalise64_divides_by_axis_maxima (test_i : list (spec_float * spec_float)) :
  Forall (fun row => (is_number64 row.1 /\ is_binary64 row.1) /\
                     (is_number64 row.2 /\ is_binary64 row.2)) test_i ->
  exists testX,
    normalise64 test_i = Ok testX /\ length testX = length test_i /\
    forall i row, test_i !! i = Some row ->
      exists mx my,
        max_abs64_col0 test_i = Ok mx /\ max_abs64_col1 test_i = Ok my /\
        mx ∈ map (fun r => SFabs r.1) test_i /\ my ∈ map (fun r => SFabs r.2) test_i /\
        (forall r, r ∈ test_i ->
           gt64 (SFabs r.1) mx = false /\ gt64 (SFabs r.2) my = false) /\
        testX !! i = Some (Binary64.truediv row.1 mx, Binary64.truediv row.2 my) /\
        (is_zero64 mx = false -> is_number64 (Binary64.truediv row.1 mx)) /\
        (is_zero64 my = false -> is_number64 (Binary64.truediv row.2 my)) /\
        (is_zero64 mx = true -> Binary64.truediv row.1 mx = S754_nan) /\
        (is_zero64 my = true -> Binary64.truediv row.2 my = S754_nan).
Proof.
  intros Hall.
  assert (H1 : Forall (fun row => is_number64 row.1) test_i)
    by (eapply Forall_impl; [exact Hall|]; simpl; tauto).
  assert (H2 : Forall (fun row => is_number64 row.2) test_i)
    by (eapply Forall_impl; [exact Hall|]; simpl; tauto).
  destruct test_i as [|row0 rest] eqn:E.
  { exists []. split; [reflexivity|]. split; [reflexivity|].
    intros i row Hrow. rewrite lookup_nil in Hrow. discriminate Hrow. }
  rewrite <- E in *.
  destruct (max_abs64_cols_nonempty test_i) as (mx & my & Hx & Hy); [congruence|].
  eexists. split; [unfold normalise64; rewrite (normalise64_loop_maps test_i mx my Hx Hy); reflexivity|].
  split; [simpl; apply length_map|].
  intros i row Hrow. exists mx, my. split; [exact Hx|]. split; [exact Hy|].
  destruct (max_abs64_spec fst test_i mx H1 Hx) as [(rx & Hrx & Emx) Hbx].
  destruct (max_abs64_spec snd test_i my H2 Hy) as [(ry & Hry & Emy) Hby].
  split; [apply list_elem_of_fmap; exists rx; split; assumption|].
  split; [apply list_elem_of_fmap; exists ry; split; assumption|].
  split; [intros r Hr; split; [apply Hbx | apply Hby]; exact Hr|].
  split; [simpl; rewrite list_lookup_fmap, Hrow; reflexivity|].
  assert (Hrin : row ∈ test_i) by (apply list_elem_of_lookup; eauto).
  rewrite Forall_forall in Hall.
  destruct (Hall row Hrin) as [[N1 V1] [N2 V2]].
  destruct (Hall rx Hrx) as [[Nx Vx] _]. destruct (Hall ry Hry) as [_ [Ny Vy]].
  split; [|split; [|split]].
  - intros Hnz. apply truediv_by_larger_is_number; try assumption.
    + rewrite Emx. apply SFabs_is_binary64. exact Vx.
    + rewrite Emx. apply SFabs_is_magnitude. exact Nx.
    + apply Hbx. exact Hrin.
  - intros Hnz. apply truediv_by_larger_is_number; try assumption.
    + rewrite Emy. apply SFabs_is_binary64. exact Vy.
    + rewrite Emy. apply SFabs_is_magnitude. exact Ny.
    + apply Hby. exact Hrin.
  - intros Hz. apply truediv_zero_by_zero; [exact N1 | exact Hz | apply Hbx; exact Hrin].
  - intros Hz. apply truediv_zero_by_zero; [exact N2 | exact Hz | apply Hby; exact Hrin].
Qed.

(** ** The lists the loop over the files leaves behind *)

Section IngestionListsFacts.
Variable loadtxt : string -> result loaded_array.
Variables n_points res : Z.

Lemma ingested_from_nil : ingested_from loadtxt n_points res [] [] [].
Proof.
  split; [reflexivity|]. split; [reflexivity|].
  intros i x Hx. rewrite lookup_nil in Hx. discriminate Hx.
Qed.

Lemma ingest_loop_lists_appends (data : list (string * Z)) :
  forall Os0 Js0,
    exists (k : nat) Os1 Js1 e,
      ingest_loop_lists loadtxt n_points res data Os0 Js0 = (Os0 ++ Os1, Js0 ++ Js1, e) /\
      (k <= length data)%nat /\
      ingested_from loadtxt n_points res (take k data) Os1 Js1 /\
      (e = None <-> k = length data) /\
      (e = None ->
         ingest_loop loadtxt n_points res data Os0 Js0 = Ok (Os0 ++ Os1, Js0 ++ Js1)) /\
      (forall ex, e = Some ex ->
         ingest_loop loadtxt n_points res data Os0 Js0 = Raise ex /\
         exists data_i, data !! k = Some data_i /\
           (loadtxt data_i.1 = Raise ex \/
            exists loaded, loadtxt data_i.1 = Ok loaded /\
              ingest n_points res loaded = Raise ex)).
Proof.
  induction data as [|data_i rest IH]; intros Os0 Js0; cbn [ingest_loop_lists ingest_loop].
  - exists 0%nat, [], [], None. rewrite !app_nil_r.
    split; [reflexivity|]. split; [reflexivity|]. split; [apply ingested_from_nil|].
    split; [tauto|]. split; [reflexivity|]. discriminate.
  - destruct (loadtxt data_i.1) as [loaded|ex] eqn:Hload.
    2:{ exists 0%nat, [], [], (Some ex). rewrite !app_nil_r.
        split; [reflexivity|]. split; [simpl; lia|]. split; [apply ingested_from_nil|].
        split; [split; [discriminate | simpl; lia]|]. split; [discriminate|].
        intros ex' Hex. inversion Hex; subst ex'. split; [reflexivity|].
        exists data_i. split; [reflexivity|]. left. exact Hload. }
    destruct (ingest n_points res loaded) as [gr|ex] eqn:Hgrid.
    2:{ exists 0%nat, [], [], (Some ex). rewrite !app_nil_r.
        split; [reflexivity|]. split; [simpl; lia|]. split; [apply ingested_from_nil|].
        split; [split; [discriminate | simpl; lia]|]. split; [discriminate|].
        intros ex' Hex. inversion Hex; subst ex'. split; [simpl; rewrite Hgrid; reflexivity|].
        exists data_i. split; [reflexivity|]. right. exists loaded. split; [exact Hload | exact Hgrid]. }
    destruct (IH (Os0 ++ [gr]) (Js0 ++ [data_i.2])) as (k & Os1 & Js1 & e & Hrun & Hk & Hfrom & Hnone & Hok & Hraise).
    exists (S k), (gr :: Os1), (data_i.2 :: Js1), e.
    split; [rewrite Hrun, <- !app_assoc; reflexivity|].
    split; [simpl; lia|].
    split.
    { destruct Hfrom as (HlO & HlJ & Hget). cbn [take].
      split; [simpl; congruence|]. split; [simpl; congruence|].
      intros [|i] d' Hd'; simpl in *.
      - inversion Hd'. subst d'. split; [reflexivity|]. exists loaded, gr. auto.
      - apply Hget. exact Hd'. }
    split; [rewrite Hnone; simpl; lia|].
    split.
    { intros He. simpl. rewrite Hgrid. simpl. rewrite (Hok He), <- !app_assoc. reflexivity. }
    intros ex Hex. destruct (Hraise ex Hex) as [Hr Hd].
    split; [simpl; rewrite Hgrid; simpl; exact Hr|]. exact Hd.
Qed.

(** X8.  The two lists the loop appends to are left in step.  When the
    loop ends, with or without an exception, both lists have the same
    length k and hold, in order, the grids and the labels of the first k
    files; k is the number of files exactly when no exception was raised,
    and otherwise file k is the one whose loading or ingestion raised.
    The lists of a run without an exception are the result of
    [ingest_all]; the exception of a failing run is the one [ingest_all]
    raises. *)
Theorem ingest_loop_lists_keep_ingested_prefix (data : list (string * Z)) :
  exists (k : nat) Os Js e,
    ingest_loop_lists loadtxt n_points res data [] [] = (Os, Js, e) /\
    (k <= length data)%nat /\ length Os = k /\ length Js = k /\
    ingested_from loadtxt n_points res (take k data) Os Js /\
    (e = None <-> k = length data) /\
    (e = None -> ingest_all loadtxt n_points res data = Ok (Os, Js)) /\
    (forall ex, e = Some ex ->
       ingest_all loadtxt n_points res data = Raise ex /\
       exists data_i, data !! k = Some data_i /\
         (loadtxt data_i.1 = Raise ex \/
          exists loaded, loadtxt data_i.1 = Ok loaded /\
            ingest n_points res loaded = Raise ex)).
Proof.
  destruct (ingest_loop_lists_appends data [] [])
    as (k & Os & Js & e & Hrun & Hk & Hfrom & Hnone & Hok & Hraise).
  exists k, Os, Js, e. split; [exact Hrun|]. split; [exact Hk|].
  destruct Hfrom as (HlO & HlJ & Hget).
  split; [rewrite HlO, length_take; lia|]. split; [rewrite HlJ, length_take; lia|].
  split; [split; [exact HlO|]; split; [exact HlJ | exact Hget]|].
  split; [exact Hnone|]. split; [exact Hok | exact Hraise].
Qed.
End IngestionListsFacts.

(** ** Concrete runs in binary64 *)

(** C3, the claim as stated fails: for one point the resolution is
    int(sqrt(2)) = 1, while ceil(sqrt(2)) = 2. *)
Lemma res64_is_not_ceil_sqrt :
  res64 1 = Ok 1 /\ ceil_sqrt (2 * 1) = 2 /\ res64 1 <> Ok (ceil_sqrt (2 * 1)).
Proof. split; [reflexivity|]. split; [reflexivity|]. vm_compute. discriminate. Qed.

Lemma res64_is_floor_sqrt_witness :
  0 < 450 < 2 ^ 51 /\
  exists r,
    res64 450 = Ok r /\
    0 <= r /\ r * r <= 2 * 450 < (r + 1) * (r + 1) /\
    (r = ceil_sqrt (2 * 450) <-> r * r = 2 * 450) /\
    (450 = 450 -> r = 30).
Proof. split; [lia|]. apply (res64_is_floor_sqrt 450). lia. Defined.

(** Past 2^51 points the rounding of the square root shows: the computed
    resolution can exceed the integer square root, and from 2^63 points on
    [np.sqrt] has no loop for the Python integer. *)
Example res64_past_the_exact_range :
  res64 2251799880794112 = Ok 67108865 /\
  Z.sqrt (2 * 2251799880794112) = 67108864 /\
  res64 (2 ^ 63) = Raise TypeError /\
  res64 (- 1) = Raise NanToInteger.
Proof. vm_compute. repeat split; reflexivity. Qed.

(** C1, the claim as stated fails: with frac = 1/2 on three entries the
    validation subset is the last int(1.5) = 1 entry, not the last
    ceil(1.5) = 2 entries. *)
Lemma split64_validation_is_not_the_ceil_suffix :
  sk_shuffle 0%nat [10; 11; 12] [1; 0; 1] = Ok ([10; 11; 12], [1; 0; 1], 1%nat) /\
  split64 0%nat (float_ratio 1 2) ([10; 11; 12], [1; 0; 1]) =
    Ok (([10], [1]), ([12], [1]), 1%nat) /\
  (float_value (Binary64.mul (Binary64.sub (Binary64.of_int 1) (float_ratio 1 2))
                  (Binary64.of_int 3)) == 3 # 2)%Q /\
  Z.to_nat (Qceiling (3 # 2)) = 2%nat /\
  last_entries 2 [10; 11; 12] = [11; 12] /\
  [12] <> last_entries (Z.to_nat (Qceiling (3 # 2))) [10; 11; 12].
Proof.
  split; [reflexivity|]. split; [vm_compute; reflexivity|].
  split; [vm_compute; reflexivity|]. split; [reflexivity|].
  split; [reflexivity|]. vm_compute. discriminate.
Qed.

Lemma split64_takes_truncated_prefix_and_suffix_witness :
  length (seq 0 384) = length (seq 1000 384) /\
  is_fraction64 (float_ratio 2 3) /\
  Z.of_nat (length (seq 0 384)) < 2 ^ 53 /\
  exists kt kv Xs' ys' g' data_train data_val,
    train_count (float_ratio 2 3) (Z.of_nat (length (seq 0 384))) = Ok kt /\
    val_count (float_ratio 2 3) (Z.of_nat (length (seq 0 384))) = Ok kv /\
    0 <= kt <= Z.of_nat (length (seq 0 384)) /\
    0 <= kv <= Z.of_nat (length (seq 0 384)) /\
    kt = py_int (float_value
           (Binary64.mul (float_ratio 2 3)
              (Binary64.of_int (Z.of_nat (length (seq 0 384)))))) /\
    kv = py_int (float_value
           (Binary64.mul (Binary64.sub (Binary64.of_int 1) (float_ratio 2 3))
              (Binary64.of_int (Z.of_nat (length (seq 0 384)))))) /\
    sk_shuffle 0%nat (seq 0 384) (seq 1000 384) = Ok (Xs', ys', g') /\
    split64 0%nat (float_ratio 2 3) (seq 0 384, seq 1000 384) =
      Ok (data_train, data_val, g') /\
    data_train = (first_entries (Z.to_nat kt) Xs', first_entries (Z.to_nat kt) ys') /\
    length data_train.1 = Z.to_nat kt /\ length data_train.2 = Z.to_nat kt /\
    (1 <= kv ->
       data_val = (last_entries (Z.to_nat kv) Xs', last_entries (Z.to_nat kv) ys') /\
       length data_val.1 = Z.to_nat kv /\ length data_val.2 = Z.to_nat kv) /\
    (length (seq 0 384) = 384%nat -> float_ratio 2 3 = float_ratio 2 3 ->
       kt = 256 /\ kv = 128 /\
       length data_train.1 = 256%nat /\ length data_val.1 = 128%nat).
Proof.
  assert (Hfrac : is_fraction64 (float_ratio 2 3)).
  { split; [exact I|]. split; vm_compute; discriminate. }
  split; [vm_compute; reflexivity|]. split; [exact Hfrac|].
  split; [vm_compute; reflexivity|].
  apply (split64_takes_truncated_prefix_and_suffix 0%nat (float_ratio 2 3)
           (seq 0 384) (seq 1000 384)).
  - vm_compute; reflexivity.
  - exact Hfrac.
  - vm_compute; reflexivity.
Defined.

(** The counts are those of the rounded products.  With frac = 4/5 on
    five entries (1 - frac) * Np is rounded below 1: the validation count
    is 0, where the exact product 1 would give one entry, and the
    validation subset is the entire shuffled dataset.  With frac = 1/3 on
    three entries frac * Np is rounded to 1, above the exact product of
    the double nearest to 1/3. *)
Example counts_follow_the_rounded_products :
  train_count (float_ratio 4 5) 5 = Ok 4 /\ val_count (float_ratio 4 5) 5 = Ok 0 /\
  py_int ((1 - (4 # 5)) * inject_Z 5) = 1 /\
  split64 0%nat (float_ratio 4 5) ([10; 11; 12; 13; 14], [1; 0; 1; 0; 1]) =
    Ok (([10; 11; 12; 13], [1; 0; 1; 0]),
        ([10; 11; 12; 13; 14], [1; 0; 1; 0; 1]), 1%nat) /\
  train_count (float_ratio 9 10) 10 = Ok 9 /\ val_count (float_ratio 9 10) 10 = Ok 0 /\
  train_count (float_ratio 1 3) 3 = Ok 1 /\
  py_int (float_value (float_ratio 1 3) * inject_Z 3) = 0 /\
  train_count (float_ratio 7 10) 90 = Ok 62 /\
  py_int ((7 # 10) * inject_Z 90) = 63.
Proof. vm_compute. repeat split; reflexivity. Qed.

(** A fraction is not checked, and a product that overflows stops the
    cell with the OverflowError of [int]. *)
Example train_count_overflow :
  train_count (Binary64.mul (Binary64.of_int (10 ^ 154)) (Binary64.of_int (10 ^ 154))) 384 =
    Raise OverflowError.
Proof. vm_compute. reflexivity. Qed.

Lemma split64_partitions_up_to_skipped_pairs_witness :
  length [10; 11; 12; 13; 14; 15; 16; 17; 18; 19] =
    length [1; 0; 1; 0; 1; 0; 1; 0; 1; 0] /\
  train_count (float_ratio 4 5) 10 = Ok 8 /\ val_count (float_ratio 4 5) 10 = Ok 1 /\
  0 <= 8 /\ 1 <= 1 /\ 8 + 1 <= 10 /\
  exists data_train data_val g' skipped,
    split64 0%nat (float_ratio 4 5)
      ([10; 11; 12; 13; 14; 15; 16; 17; 18; 19], [1; 0; 1; 0; 1; 0; 1; 0; 1; 0]) =
      Ok (data_train, data_val, g') /\
    zip [10; 11; 12; 13; 14; 15; 16; 17; 18; 19] [1; 0; 1; 0; 1; 0; 1; 0; 1; 0]
      ≡ₚ zip data_train.1 data_train.2 ++ skipped ++ zip data_val.1 data_val.2 /\
    Z.of_nat (length skipped) =
      Z.of_nat (length [10; 11; 12; 13; 14; 15; 16; 17; 18; 19]) - 8 - 1.
Proof.
  split; [reflexivity|]. split; [vm_compute; reflexivity|].
  split; [vm_compute; reflexivity|]. split; [lia|]. split; [lia|]. split; [lia|].
  apply (split64_partitions_up_to_skipped_pairs 0%nat (float_ratio 4 5)
           [10; 11; 12; 13; 14; 15; 16; 17; 18; 19] [1; 0; 1; 0; 1; 0; 1; 0; 1; 0] 8 1).
  - reflexivity.
  - vm_compute; reflexivity.
  - vm_compute; reflexivity.
  - lia.
  - lia.
  - simpl; lia.
Defined.

(** C6, the claim as stated fails: an axis whose maximum is zero is not
    left as it is; every entry of the axis becomes NaN. *)
Lemma normalise64_zero_axis_gives_nan :
  normalise64 rows64_zero_axis =
    Ok [(S754_nan, float_ratio 1 2); (S754_nan, Binary64.of_int (- 1))] /\
  normalise64_guarded rows64_zero_axis =
    Ok [(Binary64.of_int 0, float_ratio 1 2); (Binary64.of_int 0, Binary64.of_int (- 1))] /\
  normalise64 rows64_zero_axis <> normalise64_guarded rows64_zero_axis.
Proof.
  split; [vm_compute; reflexivity|]. split; [vm_compute; reflexivity|].
  vm_compute. discriminate.
Qed.

Lemma normalise64_divides_by_axis_maxima_witness :
  Forall (fun row => (is_number64 row.1 /\ is_binary64 row.1) /\
                     (is_number64 row.2 /\ is_binary64 row.2)) rows64_tenths /\
  exists testX,
    normalise64 rows64_tenths = Ok testX /\ length testX = length rows64_tenths /\
    forall i row, rows64_tenths !! i = Some row ->
      exists mx my,
        max_abs64_col0 rows64_tenths = Ok mx /\ max_abs64_col1 rows64_tenths = Ok my /\
        mx ∈ map (fun r => SFabs r.1) rows64_tenths /\
        my ∈ map (fun r => SFabs r.2) rows64_tenths /\
        (forall r, r ∈ rows64_tenths ->
           gt64 (SFabs r.1) mx = false /\ gt64 (SFabs r.2) my = false) /\
        testX !! i = Some (Binary64.truediv row.1 mx, Binary64.truediv row.2 my) /\
        (is_zero64 mx = false -> is_number64 (Binary64.truediv row.1 mx)) /\
        (is_zero64 my = false -> is_number64 (Binary64.truediv row.2 my)) /\
        (is_zero64 mx = true -> Binary64.truediv row.1 mx = S754_nan) /\
        (is_zero64 my = true -> Binary64.truediv row.2 my = S754_nan).
Proof.
  assert (Hrows : Forall (fun row => (is_number64 row.1 /\ is_binary64 row.1) /\
                                     (is_number64 row.2 /\ is_binary64 row.2)) rows64_tenths).
  { repeat constructor. }
  split; [exact Hrows|].
  exact (normalise64_divides_by_axis_maxima rows64_tenths Hrows).
Defined.

(** The quotients are the rounded ones: 0.1 / 0.3 is the double above
    1/3, not the double nearest to 1/3. *)
Example normalise64_quotients_are_rounded :
  normalise64 rows64_tenths =
    Ok [(Binary64.truediv (float_ratio 1 10) (float_ratio 3 10), float_ratio 1 2);
        (Binary64.of_int 1, Binary64.of_int 1)] /\
  Binary64.truediv (float_ratio 1 10) (float_ratio 3 10) <> float_ratio 1 3 /\
  (float_value (float_ratio 1 3) < float_value
     (Binary64.truediv (float_ratio 1 10) (float_ratio 3 10)))%Q.
Proof.
  split; [vm_compute; reflexivity|]. split; [vm_compute; discriminate|].
  vm_compute. reflexivity.
Qed.

Lemma ingest_loop_lists_keep_ingested_prefix_witness :
  exists (k : nat) Os Js e,
    ingest_loop_lists toy_loadtxt 2 2 [("001", 1); ("003", 0); ("002", 0)] [] [] =
      (Os, Js, e) /\
    (k <= length [("001", 1); ("003", 0); ("002", 0)])%nat /\
    length Os = k /\ length Js = k /\
    ingested_from toy_loadtxt 2 2 (take k [("001", 1); ("003", 0); ("002", 0)]) Os Js /\
    (e = None <-> k = length [("001", 1); ("003", 0); ("002", 0)]) /\
    (e = None ->
       ingest_all toy_loadtxt 2 2 [("001", 1); ("003", 0); ("002", 0)] = Ok (Os, Js)) /\
    (forall ex, e = Some ex ->
       ingest_all toy_loadtxt 2 2 [("001", 1); ("003", 0); ("002", 0)] = Raise ex /\
       exists data_i, [("001", 1); ("003", 0); ("002", 0)] !! k = Some data_i /\
         (toy_loadtxt data_i.1 = Raise ex \/
          exists loaded, toy_loadtxt data_i.1 = Ok loaded /\
            ingest 2 2 loaded = Raise ex)).
Proof.
  exact (ingest_loop_lists_keep_ingested_prefix toy_loadtxt 2 2
           [("001", 1); ("003", 0); ("002", 0)]).
Defined.

(** Three files whose second has a single row: the loop stops there, and
    the lists keep the grid and the label of the first file. *)
Example ingest_loop_lists_after_one_row_file :
  exists gr,
    ingest 2 2 (Table [(1, 1); (-3 # 1, -2 # 1)]%Q) = Ok gr /\
    ingest_loop_lists toy_loadtxt 2 2 [("001", 1); ("003", 0); ("002", 0)] [] [] =
      ([gr], [1], Some IndexOutOfRange).
Proof. eexists. split; reflexivity. Qed.
